(** * RainyElements: the rain particle renderer and the rainy page controller

    A shallow embedding of [RainEffect] (the particle layer) and of
    [RainyPage] (the page controller: React state, its three effects, the
    event handlers, the two audio elements and the browser timers), and the
    properties the specification states about them.

    JavaScript numbers are IEEE-754 binary64 values; they are modelled by
    [spec_float] with the binary64 operations of the Standard Library
    ([SF64add], [SF64mul], [SFltb], [SFleb]), so that rounding is the one the
    program runs with. *)

From Stdlib Require Import ZArith Lia Bool List String QArith Floats.
From stdpp Require Import gmap strings.

Set Warnings "-inexact-float".

(** ** JavaScript numbers *)

Module JS.

Abbreviation number := spec_float.

Declare Scope js_scope.
Delimit Scope js_scope with js.
Infix "+" := SF64add : js_scope.
Infix "*" := SF64mul : js_scope.

(** The numeric literals of the two source files, each the double nearest
    to the decimal literal. *)
Definition num_0 : number := S754_zero false.
Definition num_1 : number := Eval vm_compute in Prim2SF 1%float.
Definition num_2 : number := Eval vm_compute in Prim2SF 2%float.
Definition num_0_1 : number := Eval vm_compute in Prim2SF 0.1%float.
Definition num_0_3 : number := Eval vm_compute in Prim2SF 0.3%float.
Definition num_0_5 : number := Eval vm_compute in Prim2SF 0.5%float.
Definition num_0_8 : number := Eval vm_compute in Prim2SF 0.8%float.
Definition num_100 : number := Eval vm_compute in Prim2SF 100%float.
Definition num_1000 : number := Eval vm_compute in Prim2SF 1000%float.
Definition num_5000 : number := Eval vm_compute in Prim2SF 5000%float.
Definition num_10000 : number := Eval vm_compute in Prim2SF 10000%float.

(** The largest double below 1, [1 - 2^-53]. *)
Definition pred_1 : number := S754_finite false 9007199254740991 (-53).

(** What [Math.random()] may return: a double [r] with [0 <= r < 1]. *)
Definition is_random (r : number) : bool :=
  valid_binary r && SFleb num_0 r && SFltb r num_1.

(** Every finite double is an integer multiple of [2^-1074]; [scaled x] is
    that integer, and [toQ x] the exact rational value of [x]. *)
Definition scaled (x : number) : Z :=
  match x with
  | S754_finite s m e =>
      let a := (Z.pos m * 2 ^ (e + 1074))%Z in if s then (- a)%Z else a
  | _ => 0%Z
  end.

Definition toQ (x : number) : Q := Qmake (scaled x) (2 ^ 1074)%positive.

(** Truncation toward zero, and the conversion of a [setTimeout] delay to
    milliseconds: the timeout argument is a WebIDL [long] (ToInt32), and a
    negative timeout counts as 0. *)
Definition truncate (x : number) : Z :=
  match x with
  | S754_finite s m e =>
      let a := (if 0 <=? e then Z.pos m * 2 ^ e else Z.pos m / 2 ^ (- e))%Z in
      if s then (- a)%Z else a
  | _ => 0%Z
  end.

Definition ToInt32 (x : number) : Z :=
  let i := (truncate x mod 2 ^ 32)%Z in
  if (i <? 2 ^ 31)%Z then i else (i - 2 ^ 32)%Z.

Definition timeout_ms (x : number) : Z := Z.max 0 (ToInt32 x).

#[global] Instance number_eq_dec : EqDecision number.
Proof. solve_decision. Defined.

End JS.

Import JS.

(** ** The rain particle renderer ([RainEffect]) *)

Module RainEffect.

(** [dropCount]: the [switch] on the [intensity] prop, with its [default]
    branch; the prop is whatever value the caller passes at run time. *)
Definition dropCount (intensity : string) : nat :=
  if String.eqb intensity "light" then 50
  else if String.eqb intensity "medium" then 150
  else if String.eqb intensity "heavy" then 400
  else 100.

(** One drop. [left] is rendered as a percentage, [animationDuration] and
    [animationDelay] as seconds. *)
Record Raindrop := {
  id : nat;
  left : number;
  animationDuration : number;
  animationDelay : number;
  opacity : number
}.

Section Drops.

(** [random k] is the result of the [k]-th call of [Math.random()]. *)
Variable random : nat -> number.

(** The object literal of the [map] callback: four draws, in source order. *)
Definition makeDrop (k i : nat) : Raindrop :=
  {| id := i;
     left := (random k * num_100)%js;
     animationDuration := (num_0_5 + random (k + 1) * num_0_5)%js;
     animationDelay := (random (k + 2) * num_2)%js;
     opacity := (random (k + 3) * num_0_5 + num_0_1)%js |}.

(** [Array.from({ length: dropCount }).map((_, i) => ...)], the draws
    starting at call [k]. *)
Definition drops (k count : nat) : list Raindrop :=
  map (fun i => makeDrop (k + 4 * i) i) (seq 0 count).

Definition render (k : nat) (intensity : string) : list Raindrop :=
  drops k (dropCount intensity).

End Drops.

(** The double nearest to 0.6, the upper bound the specification gives for
    the opacity; the other bounds are literals of the source. *)
Definition num_0_6 : number := Eval vm_compute in Prim2SF 0.6%float.

(** [lo <= x && x < hi], or [lo <= x && x <= hi] when [closed], with the
    comparisons of the program's numbers. *)
Definition within (lo hi : number) (closed : bool) (x : number) : bool :=
  SFleb lo x && (if closed then SFleb x hi else SFltb x hi).

(** The ranges of a drop's fields, each bound the double of its literal:
    left-offset in [[0,100)], delay in [[0,2)], the duration in [[0.5,1.0)]
    or, with [duration_closed], in [[0.5,1.0]], and the opacity in
    [[0.1,0.6)] or, with [opacity_closed], in [[0.1,0.6]]. *)
Definition in_ranges (duration_closed opacity_closed : bool) (d : Raindrop) : Prop :=
  within num_0 num_100 false (left d) = true /\
  within num_0_5 num_1 duration_closed (animationDuration d) = true /\
  within num_0 num_2 false (animationDelay d) = true /\
  within num_0_1 num_0_6 opacity_closed (opacity d) = true.

(** Every drop rendered from draws in [[0,1)] is in these ranges. *)
Definition all_drops_in_ranges (duration_closed opacity_closed : bool) : Prop :=
  forall random, (forall n, is_random (random n) = true) ->
  forall k intensity d,
    In d (render random k intensity) -> in_ranges duration_closed opacity_closed d.

End RainEffect.

(** ** The page controller ([RainyPage]) *)

Module RainyPage.

Inductive WeatherType := light | medium | heavy.
Inductive TimeOfDay := day | night | dusk.
Inductive Surface := glass | metal | tiles | car | leaves | cement.

#[global] Instance WeatherType_eq_dec : EqDecision WeatherType.
Proof. solve_decision. Defined.
#[global] Instance TimeOfDay_eq_dec : EqDecision TimeOfDay.
Proof. solve_decision. Defined.
#[global] Instance Surface_eq_dec : EqDecision Surface.
Proof. solve_decision. Defined.

(** The string passed as the [intensity] prop of [RainEffect]. *)
Definition intensityProp (w : WeatherType) : string :=
  match w with light => "light" | medium => "medium" | heavy => "heavy" end.

Definition AUDIO_SOURCES (s : Surface) (w : WeatherType) : string :=
  match s, w with
  | glass, light => "https://www.orangefreesounds.com/wp-content/uploads/2020/03/Rain-on-window-sound.mp3"
  | glass, medium => "https://www.orangefreesounds.com/wp-content/uploads/2020/03/Rain-on-window-sound.mp3"
  | glass, heavy => "https://www.orangefreesounds.com/wp-content/uploads/2020/03/Rain-on-window-sound.mp3"
  | metal, light => "https://orangefreesounds.com/wp-content/uploads/2023/05/Rain-on-metal-roof-sound.mp3"
  | metal, medium => "https://orangefreesounds.com/wp-content/uploads/2023/05/Rain-on-metal-roof-sound.mp3"
  | metal, heavy => "https://orangefreesounds.com/wp-content/uploads/2023/05/Rain-on-metal-roof-sound.mp3"
  | tiles, light => "https://www.orangefreesounds.com/wp-content/uploads/2020/06/Rain-on-roof-sounds.mp3"
  | tiles, medium => "https://www.orangefreesounds.com/wp-content/uploads/2020/06/Rain-on-roof-sounds.mp3"
  | tiles, heavy => "https://www.orangefreesounds.com/wp-content/uploads/2020/06/Rain-on-roof-sounds.mp3"
  | car, light => "https://www.orangefreesounds.com/wp-content/uploads/2021/07/Raindrops-on-the-car-window-sound-effect.mp3"
  | car, medium => "https://www.orangefreesounds.com/wp-content/uploads/2021/07/Raindrops-on-the-car-window-sound-effect.mp3"
  | car, heavy => "https://www.orangefreesounds.com/wp-content/uploads/2021/07/Raindrops-on-the-car-window-sound-effect.mp3"
  | leaves, light => "https://www.orangefreesounds.com/wp-content/uploads/2016/04/Rainforest-sounds.mp3"
  | leaves, medium => "https://www.orangefreesounds.com/wp-content/uploads/2016/04/Rainforest-sounds.mp3"
  | leaves, heavy => "https://www.orangefreesounds.com/wp-content/uploads/2016/04/Rainforest-sounds.mp3"
  | cement, light => "https://www.orangefreesounds.com/wp-content/uploads/2019/06/Rain-on-concrete.mp3"
  | cement, medium => "https://www.orangefreesounds.com/wp-content/uploads/2019/06/Rain-on-concrete.mp3"
  | cement, heavy => "https://www.orangefreesounds.com/wp-content/uploads/2019/06/Rain-on-concrete.mp3"
  end.

Definition THUNDER_SOUND : string :=
  "https://orangefreesounds.com/wp-content/uploads/2023/01/Thunder-clap-sound-effect-no-rain.mp3".

(** *** State *)

(** The nine [useState] cells of the component. *)
Record Hooks := {
  weatherIntensity : WeatherType;
  timeOfDay : TimeOfDay;
  showControls : bool;
  isMuted : bool;
  windowOpen : bool;
  volume : number;
  isThundering : bool;
  enableManualThunder : bool;
  surface : Surface
}.

#[global] Instance Hooks_eq_dec : EqDecision Hooks.
Proof. solve_decision. Defined.

Definition setWeatherIntensity (v : WeatherType) (h : Hooks) : Hooks :=
  {| weatherIntensity := v; timeOfDay := timeOfDay h; showControls := showControls h;
     isMuted := isMuted h; windowOpen := windowOpen h; volume := volume h;
     isThundering := isThundering h; enableManualThunder := enableManualThunder h;
     surface := surface h |}.
Definition setTimeOfDay (v : TimeOfDay) (h : Hooks) : Hooks :=
  {| weatherIntensity := weatherIntensity h; timeOfDay := v; showControls := showControls h;
     isMuted := isMuted h; windowOpen := windowOpen h; volume := volume h;
     isThundering := isThundering h; enableManualThunder := enableManualThunder h;
     surface := surface h |}.
Definition setShowControls (v : bool) (h : Hooks) : Hooks :=
  {| weatherIntensity := weatherIntensity h; timeOfDay := timeOfDay h; showControls := v;
     isMuted := isMuted h; windowOpen := windowOpen h; volume := volume h;
     isThundering := isThundering h; enableManualThunder := enableManualThunder h;
     surface := surface h |}.
Definition setIsMuted (v : bool) (h : Hooks) : Hooks :=
  {| weatherIntensity := weatherIntensity h; timeOfDay := timeOfDay h;
     showControls := showControls h; isMuted := v; windowOpen := windowOpen h;
     volume := volume h; isThundering := isThundering h;
     enableManualThunder := enableManualThunder h; surface := surface h |}.
Definition setWindowOpen (v : bool) (h : Hooks) : Hooks :=
  {| weatherIntensity := weatherIntensity h; timeOfDay := timeOfDay h;
     showControls := showControls h; isMuted := isMuted h; windowOpen := v;
     volume := volume h; isThundering := isThundering h;
     enableManualThunder := enableManualThunder h; surface := surface h |}.
Definition setVolume (v : number) (h : Hooks) : Hooks :=
  {| weatherIntensity := weatherIntensity h; timeOfDay := timeOfDay h;
     showControls := showControls h; isMuted := isMuted h; windowOpen := windowOpen h;
     volume := v; isThundering := isThundering h;
     enableManualThunder := enableManualThunder h; surface := surface h |}.
Definition setIsThundering (v : bool) (h : Hooks) : Hooks :=
  {| weatherIntensity := weatherIntensity h; timeOfDay := timeOfDay h;
     showControls := showControls h; isMuted := isMuted h; windowOpen := windowOpen h;
     volume := volume h; isThundering := v;
     enableManualThunder := enableManualThunder h; surface := surface h |}.
Definition setEnableManualThunder (v : bool) (h : Hooks) : Hooks :=
  {| weatherIntensity := weatherIntensity h; timeOfDay := timeOfDay h;
     showControls := showControls h; isMuted := isMuted h; windowOpen := windowOpen h;
     volume := volume h; isThundering := isThundering h;
     enableManualThunder := v; surface := surface h |}.
Definition setSurface (v : Surface) (h : Hooks) : Hooks :=
  {| weatherIntensity := weatherIntensity h; timeOfDay := timeOfDay h;
     showControls := showControls h; isMuted := isMuted h; windowOpen := windowOpen h;
     volume := volume h; isThundering := isThundering h;
     enableManualThunder := enableManualThunder h; surface := v |}.

(** The fields of an [<audio>] element the component reads or writes. *)
Record HTMLAudioElement := {
  src : string;
  el_volume : number;
  paused : bool;
  loop : bool;
  currentTime : number
}.

(** A pending timer callback. [ThunderTick cell muted open] is the arrow
    function of [randomInterval]: it closes over the [timerRef] object of
    its effect run ([cell]) and over the [isMuted] and [windowOpen] of the
    render that ran the effect. [ClearFlash] is
    [() => setIsThundering(false)]. *)
Inductive Callback :=
| ThunderTick (cell : nat) (muted open : bool)
| ClearFlash.

#[global] Instance Callback_eq_dec : EqDecision Callback.
Proof. solve_decision. Defined.

Record Timer := {
  callback : Callback;
  delay : number;     (* the second argument of setTimeout *)
  setAt : Z           (* the time of the setTimeout call, in ms *)
}.

(** What the page does that can be observed from outside, most recent
    first: calls on the two audio elements, and the instants at which a
    flash starts or the automatic loop is (re)started. *)
Inductive Obs :=
| RainSrc (url : string)      (* audio.src = url *)
| RainPlay                    (* audio.play() *)
| RainPause                   (* audio.pause() *)
| ThunderPlay (vol : number)  (* thunder element: volume = vol; play() *)
| AutoFlash (t : Z)           (* triggerThunder ran at t *)
| ManualFlash (t : Z)         (* triggerManualThunder ran at t *)
| LoopStart (t : Z).          (* the thunder effect scheduled its first timer at t *)

(** Everything outside React state: the two elements behind [audioRef] and
    [thunderAudioRef], the browser's timer table, the [timerRef] objects
    allocated by runs of the thunder effect, the clock, the number of
    [Math.random()] calls made so far, and whether the browser lets
    [play()] start playback. *)
Record Env := {
  audioEl : HTMLAudioElement;
  thunderEl : HTMLAudioElement;
  timers : gmap nat Timer;
  nextTimer : nat;
  cells : gmap nat nat;
  nextCell : nat;
  clock : Z;
  drawn : nat;
  autoplay : bool;
  trace : list Obs
}.

Definition withAudio (a : HTMLAudioElement) (b : Env) : Env :=
  {| audioEl := a; thunderEl := thunderEl b; timers := timers b; nextTimer := nextTimer b;
     cells := cells b; nextCell := nextCell b; clock := clock b; drawn := drawn b;
     autoplay := autoplay b; trace := trace b |}.
Definition withThunder (a : HTMLAudioElement) (b : Env) : Env :=
  {| audioEl := audioEl b; thunderEl := a; timers := timers b; nextTimer := nextTimer b;
     cells := cells b; nextCell := nextCell b; clock := clock b; drawn := drawn b;
     autoplay := autoplay b; trace := trace b |}.
Definition withTimers (t : gmap nat Timer) (n : nat) (b : Env) : Env :=
  {| audioEl := audioEl b; thunderEl := thunderEl b; timers := t; nextTimer := n;
     cells := cells b; nextCell := nextCell b; clock := clock b; drawn := drawn b;
     autoplay := autoplay b; trace := trace b |}.
Definition withCells (c : gmap nat nat) (n : nat) (b : Env) : Env :=
  {| audioEl := audioEl b; thunderEl := thunderEl b; timers := timers b;
     nextTimer := nextTimer b; cells := c; nextCell := n; clock := clock b;
     drawn := drawn b; autoplay := autoplay b; trace := trace b |}.
Definition withClock (t : Z) (b : Env) : Env :=
  {| audioEl := audioEl b; thunderEl := thunderEl b; timers := timers b;
     nextTimer := nextTimer b; cells := cells b; nextCell := nextCell b; clock := t;
     drawn := drawn b; autoplay := autoplay b; trace := trace b |}.
Definition withDrawn (n : nat) (b : Env) : Env :=
  {| audioEl := audioEl b; thunderEl := thunderEl b; timers := timers b;
     nextTimer := nextTimer b; cells := cells b; nextCell := nextCell b; clock := clock b;
     drawn := n; autoplay := autoplay b; trace := trace b |}.
Definition withAutoplay (a : bool) (b : Env) : Env :=
  {| audioEl := audioEl b; thunderEl := thunderEl b; timers := timers b;
     nextTimer := nextTimer b; cells := cells b; nextCell := nextCell b; clock := clock b;
     drawn := drawn b; autoplay := a; trace := trace b |}.
Definition observe (o : Obs) (b : Env) : Env :=
  {| audioEl := audioEl b; thunderEl := thunderEl b; timers := timers b;
     nextTimer := nextTimer b; cells := cells b; nextCell := nextCell b; clock := clock b;
     drawn := drawn b; autoplay := autoplay b; trace := o :: trace b |}.

(** *** Browser operations *)

(** [setTimeout(cb, d)]: a fresh id, returned to the caller. *)
Definition setTimeout (cb : Callback) (d : number) (b : Env) : nat * Env :=
  (nextTimer b,
   withTimers (<[nextTimer b := {| callback := cb; delay := d; setAt := clock b |}]> (timers b))
              (S (nextTimer b)) b).

(** [clearTimeout(id)]: nothing happens for an id that is not pending. *)
Definition clearTimeout (id : nat) (b : Env) : Env :=
  withTimers (delete id (timers b)) (nextTimer b) b.

(** [audio.src = url]: loading a new resource pauses the element. *)
Definition assignSrc (url : string) (b : Env) : Env :=
  let a := audioEl b in
  observe (RainSrc url)
    (withAudio {| src := url; el_volume := el_volume a; paused := true; loop := loop a;
                  currentTime := currentTime a |} b).

(** [audio.play()]: playback starts when the browser allows it; a rejected
    promise is caught and logged, and changes nothing. *)
Definition play (b : Env) : Env :=
  let a := audioEl b in
  observe RainPlay
    (if autoplay b
     then withAudio {| src := src a; el_volume := el_volume a; paused := false;
                       loop := loop a; currentTime := currentTime a |} b
     else b).

Definition pause (b : Env) : Env :=
  let a := audioEl b in
  observe RainPause
    (withAudio {| src := src a; el_volume := el_volume a; paused := true; loop := loop a;
                  currentTime := currentTime a |} b).

Definition assignLoop (v : bool) (b : Env) : Env :=
  let a := audioEl b in
  withAudio {| src := src a; el_volume := el_volume a; paused := paused a; loop := v;
               currentTime := currentTime a |} b.

Definition assignVolume (v : number) (b : Env) : Env :=
  let a := audioEl b in
  withAudio {| src := src a; el_volume := v; paused := paused a; loop := loop a;
               currentTime := currentTime a |} b.

(** The thunder sound of [triggerThunder] and [triggerManualThunder]:
    [currentTime = 0; volume = windowOpen ? 1.0 : 0.5; play()], unless
    muted. Both [<audio>] elements are rendered unconditionally, so both refs
    are non-null whenever a handler, an effect or a timer callback runs. *)
Definition thunderSound (muted open : bool) (b : Env) : Env :=
  if muted then b
  else
    let a := thunderEl b in
    let vol := if open then num_1 else num_0_5 in
    observe (ThunderPlay vol)
      (withThunder {| src := src a; el_volume := vol;
                      paused := if autoplay b then false else paused a;
                      loop := loop a; currentTime := num_0 |} b).

Section Controller.

(** [random k] is the result of the [k]-th call of [Math.random()]. *)
Variable random : nat -> number.

Definition Math_random (b : Env) : number * Env :=
  (random (drawn b), withDrawn (S (drawn b)) b).

(** *** The three effects *)

(** "Consolidated Audio Logic", deps [weatherIntensity, isMuted, volume, surface]. *)
Definition audioEffect (h : Hooks) (b : Env) : Env :=
  let b := assignLoop true b in
  let targetSrc := AUDIO_SOURCES (surface h) (weatherIntensity h) in
  let needsSrcChange := negb (String.eqb (src (audioEl b)) targetSrc) in
  let b := if needsSrcChange then assignSrc targetSrc b else b in
  let b := assignVolume (volume h) b in
  if isMuted h then pause b
  else if paused (audioEl b) || needsSrcChange then play b else b.

(** "Adjust volume based on window open state", deps [windowOpen]. The
    update is queued on [q], the state of the next render. *)
Definition volumeEffect (h : Hooks) (q : Hooks) : Hooks :=
  if windowOpen h then setVolume num_0_8 q else setVolume num_0_3 q.

(** [5000 + Math.random() * 10000] *)
Definition thunderDelay (r : number) : number := (num_5000 + r * num_10000)%js.

(** [randomInterval], for the effect run whose [timerRef] is [cell]. *)
Definition randomInterval (cell : nat) (muted open : bool) (b : Env) : nat * Env :=
  let '(r, b) := Math_random b in
  setTimeout (ThunderTick cell muted open) (thunderDelay r) b.

(** "Thunder Effect Logic", deps [weatherIntensity, isMuted, windowOpen].
    Returns the queued state, the environment and the [timerRef] its cleanup
    will read, if it returns a cleanup. *)
Definition thunderEffect (h : Hooks) (q : Hooks) (b : Env) : Hooks * Env * option nat :=
  if bool_decide (weatherIntensity h <> heavy) then (setIsThundering false q, b, None)
  else
    let cell := nextCell b in
    let '(id, b) := randomInterval cell (isMuted h) (windowOpen h) b in
    let b := withCells (<[cell := id]> (cells b)) (S cell) b in
    (q, observe (LoopStart (clock b)) b, Some cell).

(** The cleanup [() => clearTimeout(timerRef.current)]. *)
Definition thunderCleanupFn (cell : nat) (b : Env) : Env :=
  match cells b !! cell with
  | Some id => clearTimeout id b
  | None => b
  end.

(** *** Timer callbacks *)

Definition runCallback (cb : Callback) (h : Hooks) (b : Env) : Hooks * Env :=
  match cb with
  | ThunderTick cell muted open =>
      (* triggerThunder() *)
      let q := setIsThundering true h in
      let b := observe (AutoFlash (clock b)) b in
      let b := thunderSound muted open b in
      let '(_, b) := setTimeout ClearFlash num_1000 b in
      (* timerRef.current = randomInterval() *)
      let '(id, b) := randomInterval cell muted open b in
      (q, withCells (<[cell := id]> (cells b)) (nextCell b) b)
  | ClearFlash => (setIsThundering false h, b)
  end.

(** *** Event handlers *)

Definition handleIntensityChange (intensity : WeatherType) (h : Hooks) (b : Env)
  : Hooks * Env :=
  let q := setIsMuted false (setWeatherIntensity intensity h) in
  let newSrc := AUDIO_SOURCES (surface h) intensity in
  if negb (String.eqb (src (audioEl b)) newSrc)
  then (q, play (assignSrc newSrc b))
  else (q, b).

Definition triggerManualThunder (h : Hooks) (b : Env) : Hooks * Env :=
  let q := setIsThundering true h in
  let b := observe (ManualFlash (clock b)) b in
  let b := thunderSound (isMuted h) (windowOpen h) b in
  let '(_, b) := setTimeout ClearFlash num_1000 b in
  (q, b).

(** *** Rendering and effects *)

(** What React remembers between renders: the dependency arrays of the last
    run of each effect ([None] before the first commit) and the cleanup the
    thunder effect returned. *)
Record Fiber := {
  audioDeps : option (WeatherType * bool * number * Surface);
  volumeDeps : option bool;
  thunderDeps : option (WeatherType * bool * bool);
  thunderCleanup : option nat
}.

Record World := { hooks : Hooks; fiber : Fiber; env : Env }.

Definition depsOfAudio (h : Hooks) := (weatherIntensity h, isMuted h, volume h, surface h).
Definition depsOfVolume (h : Hooks) := windowOpen h.
Definition depsOfThunder (h : Hooks) := (weatherIntensity h, isMuted h, windowOpen h).

(** One render with state [hooks w] followed by its effects: the cleanups
    of the effects whose dependencies changed, then their bodies in source
    order. State updates made by the effects are queued for the next
    render. *)
Definition commit (w : World) : World :=
  let h := hooks w in
  let f := fiber w in
  let runA := bool_decide (audioDeps f <> Some (depsOfAudio h)) in
  let runV := bool_decide (volumeDeps f <> Some (depsOfVolume h)) in
  let runT := bool_decide (thunderDeps f <> Some (depsOfThunder h)) in
  let b := env w in
  let b := if runT
           then match thunderCleanup f with Some c => thunderCleanupFn c b | None => b end
           else b in
  let b := if runA then audioEffect h b else b in
  let q := if runV then volumeEffect h h else h in
  let '(q, b, cl) := if runT then thunderEffect h q b else (q, b, thunderCleanup f) in
  {| hooks := q;
     fiber := {| audioDeps := Some (depsOfAudio h); volumeDeps := Some (depsOfVolume h);
                 thunderDeps := Some (depsOfThunder h); thunderCleanup := cl |};
     env := b |}.

(** Renders until the effects queue no further update: two passes are
    enough (lemma [commit_settle]). *)
Definition settle (w : World) : World := commit (commit w).

(** *** Mounting and events *)

Definition initialHooks : Hooks :=
  {| weatherIntensity := medium; timeOfDay := night; showControls := true;
     isMuted := false; windowOpen := false; volume := num_0_5; isThundering := false;
     enableManualThunder := false; surface := glass |}.

Definition initialEnv : Env :=
  {| audioEl := {| src := ""; el_volume := num_1; paused := true; loop := false;
                   currentTime := num_0 |};
     thunderEl := {| src := THUNDER_SOUND; el_volume := num_1; paused := true;
                     loop := false; currentTime := num_0 |};
     timers := ∅; nextTimer := 0; cells := ∅; nextCell := 0; clock := 0; drawn := 0;
     autoplay := false; trace := [] |}.

(** The first render, before any effect has run. *)
Definition firstRender : World :=
  {| hooks := initialHooks;
     fiber := {| audioDeps := None; volumeDeps := None; thunderDeps := None;
                 thunderCleanup := None |};
     env := initialEnv |}.

Definition mounted : World := settle firstRender.

Inductive Event :=
| ClickIntensity (i : WeatherType)      (* Light / Medium / Storm buttons *)
| ClickTimeOfDay (t : TimeOfDay)
| ClickControlsToggle
| SelectSurface (s : Surface)
| SwitchSound (checked : bool)          (* onCheckedChange={(c) => setIsMuted(!c)} *)
| SwitchWindow (checked : bool)         (* onCheckedChange={setWindowOpen} *)
| SwitchManualThunder (checked : bool)  (* onCheckedChange={setEnableManualThunder} *)
| ClickTriggerThunder                   (* rendered only when enableManualThunder *)
| TimerFires (id : nat)                 (* the browser runs a due timer *)
| Elapse (dt : Z)                       (* time passes, no timer becoming overdue *)
| Autoplay (allowed : bool).            (* the browser's autoplay permission changes *)

Definition due (t : Timer) : Z := (setAt t + timeout_ms (delay t))%Z.

Definition rerender (w : World) (qb : Hooks * Env) : World :=
  settle {| hooks := fst qb; fiber := fiber w; env := snd qb |}.

(** One event: the handler runs against the state of the last render, then
    React renders and runs effects until nothing changes. Timers fire exactly
    when due, and time does not pass over a due timer. *)
Definition step (e : Event) (w : World) : option World :=
  let h := hooks w in
  let b := env w in
  match e with
  | ClickIntensity i => Some (rerender w (handleIntensityChange i h b))
  | ClickTimeOfDay t => Some (rerender w (setTimeOfDay t h, b))
  | ClickControlsToggle => Some (rerender w (setShowControls (negb (showControls h)) h, b))
  | SelectSurface s => Some (rerender w (setSurface s h, b))
  | SwitchSound c => Some (rerender w (setIsMuted (negb c) h, b))
  | SwitchWindow c => Some (rerender w (setWindowOpen c h, b))
  | SwitchManualThunder c => Some (rerender w (setEnableManualThunder c h, b))
  | ClickTriggerThunder =>
      if enableManualThunder h then Some (rerender w (triggerManualThunder h b)) else None
  | TimerFires id =>
      match timers b !! id with
      | Some t =>
          if bool_decide (clock b = due t)
          then Some (rerender w (runCallback (callback t) h (clearTimeout id b)))
          else None
      | None => None
      end
  | Elapse dt =>
      if bool_decide (0 < dt)%Z
         && bool_decide (map_Forall (fun _ t => (clock b + dt <= due t)%Z) (timers b))
      then Some (rerender w (h, withClock (clock b + dt) b))
      else None
  | Autoplay a => Some (rerender w (h, withAutoplay a b))
  end.

Fixpoint run (es : list Event) (w : World) : option World :=
  match es with
  | [] => Some w
  | e :: es' => match step e w with Some w' => run es' w' | None => None end
  end.

Inductive reachable : World -> Prop :=
| reachable_mounted : reachable mounted
| reachable_step e w w' : reachable w -> step e w = Some w' -> reachable w'.

(** The number of particles the page shows. *)
Definition particleCount (w : World) : nat :=
  RainEffect.dropCount (intensityProp (weatherIntensity (hooks w))).

End Controller.

(** The volume the specification derives from the window: 0.8 when open,
    0.3 when closed, both as state and on the rain audio element. *)
Definition volumeFollowsWindow (w : World) : Prop :=
  volume (hooks w) = (if windowOpen (hooks w) then num_0_8 else num_0_3) /\
  el_volume (audioEl (env w)) = volume (hooks w).

End RainyPage.

(** ** Observations

    What the properties say about a run of the page: the flashes of the
    automatic loop and the operations on the rain audio element among the
    observations, and the concrete runs they are tried on. *)

Module Observations.

Import JS RainyPage.

(** The instant of the most recent flash of the automatic loop or start of
    the loop, whichever is later. *)
Fixpoint lastLoopTime (tr : list Obs) : option Z :=
  match tr with
  | [] => None
  | AutoFlash t :: _ | LoopStart t :: _ => Some t
  | _ :: tr' => lastLoopTime tr'
  end.

(** Observations that are neither a flash of the loop nor a start of it. *)
Definition besideLoop (o : Obs) : Prop :=
  match o with AutoFlash _ | LoopStart _ => False | _ => True end.

(** Observations other than a flash of the automatic loop. *)
Definition notFlash (o : Obs) : Prop :=
  match o with AutoFlash _ => False | _ => True end.

(** The instants of the flashes of the automatic loop, the latest first. *)
Fixpoint flashTimes (tr : list Obs) : list Z :=
  match tr with
  | [] => []
  | AutoFlash t :: tr' => t :: flashTimes tr'
  | _ :: tr' => flashTimes tr'
  end.

(** The operations on the rain audio element, among the observations. *)
Fixpoint audioOps (tr : list Obs) : list Obs :=
  match tr with
  | [] => []
  | RainSrc url :: tr' => RainSrc url :: audioOps tr'
  | RainPlay :: tr' => RainPlay :: audioOps tr'
  | RainPause :: tr' => RainPause :: audioOps tr'
  | _ :: tr' => audioOps tr'
  end.

(** [AUDIO_SOURCES[surface][weatherIntensity]] *)
Definition targetSrc (h : Hooks) : string :=
  AUDIO_SOURCES (surface h) (weatherIntensity h).

(** From world [w] to world [w'], the source of the rain audio element is
    assigned [target] and played if it differs from [target], and is left
    alone if it equals [target]. *)
Definition swapsWhenDiffers (w w' : World) (target : string) : Prop :=
  src (audioEl (env w')) = target /\
  exists new,
    audioOps (trace (env w')) = new ++ audioOps (trace (env w)) /\
    ((src (audioEl (env w)) <> target /\ new = [RainPlay; RainSrc target]) \/
     (src (audioEl (env w)) = target /\ (new = [] \/ new = [RainPlay]))).

(** Every flash of the automatic loop comes 5000 ms to 15000 ms (excluded)
    after the previous flash or (re)start of the loop, whichever is later. *)
Fixpoint flashGaps (tr : list Obs) : Prop :=
  match tr with
  | [] => True
  | AutoFlash t :: tr' =>
      (exists t0, lastLoopTime tr' = Some t0 /\ (5000 <= t - t0 < 15000)%Z) /\
      flashGaps tr'
  | _ :: tr' => flashGaps tr'
  end.

(** The differences of consecutive instants, the latest first. *)
Fixpoint gaps (ts : list Z) : list Z :=
  match ts with
  | t :: ((t0 :: _) as rest) => (t - t0)%Z :: gaps rest
  | _ => []
  end.

Definition noIntensityClick (e : Event) : Prop :=
  match e with ClickIntensity _ => False | _ => True end.

(** *** Concrete runs *)

(** A source of draws: 0 first, then 0.5. *)
Definition draws (k : nat) : number :=
  match k with O => num_0 | _ => num_0_5 end.

(** The page after a click on the Storm button. *)
Definition storm : World :=
  rerender draws (mounted draws)
    (handleIntensityChange heavy (hooks (mounted draws)) (env (mounted draws))).

(** The page after the manual mode was switched on. *)
Definition armed : World :=
  rerender draws (mounted draws)
    (setEnableManualThunder true (hooks (mounted draws)), env (mounted draws)).

(** A run in heavy rain: a flash at 5000 ms, the window opened at 14000 ms,
    one second before the next flash was due, and the next flash at
    24000 ms. *)
Definition restartRun : list Event :=
  [Elapse 5000; TimerFires 0; Elapse 1000; TimerFires 1; Elapse 8000;
   SwitchWindow true; Elapse 10000; TimerFires 3].

End Observations.

(** * Properties *)

(** ** Binary64 rounding

    What the proofs below need of IEEE-754 arithmetic: on non-negative
    finite doubles, [SF64mul] and [SF64add] round an exact value to nearest
    (ties to even), and rounding is monotone. The development follows the
    definitions of [SpecFloat] ([shr], [round_nearest_even],
    [binary_round_aux]). *)

Module Binary64.

Local Open Scope Z_scope.

Ltac by_vm := vm_compute; reflexivity.

Lemma iter_pos_nat {A} (f : A -> A) p x :
  SpecFloat.iter_pos f p x = Nat.iter (Pos.to_nat p) f x.
Proof.
  revert x. induction p as [p IH | p IH |]; intros x.
  - change (SpecFloat.iter_pos f p~1 x) with (SpecFloat.iter_pos f p (SpecFloat.iter_pos f p (f x))).
    rewrite !IH. rewrite Pos2Nat.inj_xI.
    replace (S (2 * Pos.to_nat p))%nat with (Pos.to_nat p + (Pos.to_nat p + 1))%nat by lia.
    rewrite !Nat.iter_add. reflexivity.
  - change (SpecFloat.iter_pos f p~0 x) with (SpecFloat.iter_pos f p (SpecFloat.iter_pos f p x)).
    rewrite !IH. rewrite Pos2Nat.inj_xO.
    replace (2 * Pos.to_nat p)%nat with (Pos.to_nat p + Pos.to_nat p)%nat by lia.
    now rewrite Nat.iter_add.
  - reflexivity.
Qed.

Lemma digits2_pos_size m : digits2_pos m = Pos.size m.
Proof. induction m; simpl; congruence. Qed.

Lemma digits_bounds m :
  2 ^ (Zpos (digits2_pos m) - 1) <= Zpos m < 2 ^ Zpos (digits2_pos m).
Proof.
  rewrite digits2_pos_size. split.
  - pose proof (Pos.size_le m) as H.
    assert (Hz : Zpos (2 ^ Pos.size m) <= Zpos m~0) by exact H.
    rewrite Pos2Z.inj_pow in Hz.
    replace (Zpos (Pos.size m)) with (Zpos (Pos.size m) - 1 + 1) in Hz by lia.
    rewrite Z.pow_add_r in Hz by lia. lia.
  - pose proof (Pos.size_gt m) as H.
    assert (Hz : Zpos m < Zpos (2 ^ Pos.size m)) by exact H.
    now rewrite Pos2Z.inj_pow in Hz.
Qed.

Definition locof (rho : Z) (k : Z) : location :=
  if rho =? 0 then loc_Exact else loc_Inexact (2 * rho ?= 2 ^ k).

Lemma shr_1_arith m r s :
  0 <= m -> shr_1 (Build_shr_record m r s) = Build_shr_record (m / 2) (Z.odd m) (r || s).
Proof.
  intros Hm. destruct m as [|p|p]; [reflexivity| |lia].
  destruct p as [p|p|]; unfold shr_1.
  - f_equal. rewrite Pos2Z.inj_xI. symmetry.
    rewrite Z.mul_comm, Z.add_comm. rewrite Z.div_add by lia. reflexivity.
  - f_equal. rewrite Pos2Z.inj_xO. rewrite Z.mul_comm. now rewrite Z.div_mul by lia.
  - reflexivity.
Qed.

Lemma locof_step rho k (b : bool) m :
  0 <= k -> 0 <= rho < 2 ^ k ->
  loc_of_shr_record (Build_shr_record m b (negb (rho =? 0))) =
  locof (rho + 2 ^ k * (if b then 1 else 0)) (k + 1).
Proof.
  intros Hk Hrho. unfold locof.
  rewrite Z.pow_add_r, Z.pow_1_r by lia.
  destruct b; destruct (Z.eqb_spec rho 0) as [E|E]; cbn [negb loc_of_shr_record].
  - destruct (Z.eqb_spec (rho + 2 ^ k * 1) 0); [lia|].
    f_equal. symmetry. apply Z.compare_eq_iff. lia.
  - destruct (Z.eqb_spec (rho + 2 ^ k * 1) 0); [lia|].
    f_equal. symmetry. apply Z.compare_gt_iff. lia.
  - destruct (Z.eqb_spec (rho + 2 ^ k * 0) 0); [reflexivity|lia].
  - destruct (Z.eqb_spec (rho + 2 ^ k * 0) 0); [lia|].
    f_equal. symmetry. apply Z.compare_lt_iff. lia.
Qed.

Lemma shr_iter (k : nat) M :
  0 <= M ->
  let x := Nat.iter k shr_1 (Build_shr_record M false false) in
  shr_m x = M / 2 ^ Z.of_nat k /\
  loc_of_shr_record x = locof (M mod 2 ^ Z.of_nat k) (Z.of_nat k).
Proof.
  intros HM. induction k as [|k IH].
  - cbn [Nat.iter Z.of_nat shr_m loc_of_shr_record]. rewrite Z.pow_0_r, Z.div_1_r, Z.mod_1_r.
    split; reflexivity.
  - cbv zeta in *. rewrite Nat.iter_succ.
    destruct (Nat.iter k shr_1 _) as [m r s]. cbn [shr_m] in IH.
    destruct IH as [Hm Hl].
    assert (H2k : 0 < 2 ^ Z.of_nat k) by (apply Z.pow_pos_nonneg; lia).
    assert (Hm0 : 0 <= m) by (rewrite Hm; apply Z.div_pos; [exact HM | exact H2k]).
    rewrite shr_1_arith by assumption.
    rewrite Nat2Z.inj_succ. unfold Z.succ.
    pose proof (Z.mod_pos_bound M (2 ^ Z.of_nat k) H2k) as Hrho.
    assert (Hs : (r || s)%bool = negb (M mod 2 ^ Z.of_nat k =? 0)).
    { unfold locof in Hl. destruct (M mod 2 ^ Z.of_nat k =? 0); destruct r, s;
        cbn in Hl |- *; congruence. }
    split.
    + cbn [shr_m]. rewrite Hm, Z.pow_add_r, Z.pow_1_r by lia.
      now rewrite Z.div_div by lia.
    + rewrite Hs. rewrite (locof_step _ (Z.of_nat k)) by lia. f_equal.
      rewrite Z.pow_add_r, Z.pow_1_r by lia.
      rewrite Z.rem_mul_r by lia. rewrite <- Hm, Zmod_odd. reflexivity.
Qed.

Definition rne (M n : Z) : Z :=
  round_nearest_even (M / 2 ^ n) (locof (M mod 2 ^ n) n).

Lemma shr_exact M e n :
  0 <= M -> 0 <= n ->
  exists x, shr (Build_shr_record M false false) e n = (x, e + n) /\
    shr_m x = M / 2 ^ n /\ loc_of_shr_record x = locof (M mod 2 ^ n) n.
Proof.
  intros HM Hn. destruct n as [|p|p]; [| |lia].
  - exists (Build_shr_record M false false). cbn [shr shr_m loc_of_shr_record].
    rewrite Z.add_0_r, Z.pow_0_r, Z.div_1_r, Z.mod_1_r. repeat split.
  - unfold shr. rewrite iter_pos_nat.
    pose proof (shr_iter (Pos.to_nat p) M HM) as H. cbv zeta in H.
    rewrite positive_nat_Z in H.
    eexists; split; [reflexivity|exact H].
Qed.

Lemma shr_noop mrs e n : n <= 0 -> shr mrs e n = (mrs, e).
Proof. destruct n; [reflexivity|lia|reflexivity]. Qed.

Lemma rne_cases M n :
  0 <= M -> 0 <= n ->
  let q := M / 2 ^ n in let rho := M mod 2 ^ n in
  (2 * rho < 2 ^ n /\ rne M n = q) \/
  (2 * rho = 2 ^ n /\ rne M n = if Z.even q then q else q + 1) \/
  (2 ^ n < 2 * rho /\ rne M n = q + 1).
Proof.
  intros HM Hn q rho. unfold rne, locof. fold q rho.
  assert (H2n : 0 < 2 ^ n) by (apply Z.pow_pos_nonneg; lia).
  pose proof (Z.mod_pos_bound M (2 ^ n) H2n) as Hrho. fold rho in Hrho.
  destruct (Z.eqb_spec rho 0) as [E|E].
  - left. split; [lia|reflexivity].
  - destruct (Z.compare_spec (2 * rho) (2 ^ n)) as [C|C|C]; cbn [round_nearest_even].
    + right; left. split; [exact C|reflexivity].
    + left. split; [exact C|reflexivity].
    + right; right. split; [exact C|reflexivity].
Qed.

Lemma rne_bounds M n :
  0 <= M -> 0 <= n -> M / 2 ^ n <= rne M n <= M / 2 ^ n + 1.
Proof.
  intros HM Hn. destruct (rne_cases M n HM Hn) as [[_ ->]|[[_ ->]|[_ ->]]];
    try destruct (Z.even _); lia.
Qed.

Lemma rne_exact M n :
  0 <= M -> 0 <= n -> M mod 2 ^ n = 0 -> rne M n = M / 2 ^ n.
Proof.
  intros HM Hn H0. unfold rne, locof. rewrite H0. reflexivity.
Qed.

Lemma rne_le_ceil M n K :
  0 <= M -> 0 <= n -> M <= K * 2 ^ n -> rne M n <= K.
Proof.
  intros HM Hn HK.
  assert (H2n : 0 < 2 ^ n) by (apply Z.pow_pos_nonneg; lia).
  pose proof (rne_bounds M n HM Hn) as Hb.
  assert (Hq : M / 2 ^ n <= K).
  { apply Z.div_le_upper_bound; lia. }
  destruct (Z.eq_dec (M / 2 ^ n) K) as [E|E]; [|lia].
  rewrite rne_exact; try lia.
  pose proof (Z.div_mod M (2 ^ n) ltac:(lia)) as Hd.
  pose proof (Z.mod_pos_bound M (2 ^ n) H2n). nia.
Qed.

Lemma rne_mono M1 M2 n :
  0 <= M1 -> M1 <= M2 -> 0 <= n -> rne M1 n <= rne M2 n.
Proof.
  intros H1 H12 Hn.
  assert (H2n : 0 < 2 ^ n) by (apply Z.pow_pos_nonneg; lia).
  assert (HM2 : 0 <= M2) by lia.
  pose proof (Z.div_le_mono M1 M2 (2 ^ n) H2n H12) as Hq.
  destruct (Z.eq_dec (M1 / 2 ^ n) (M2 / 2 ^ n)) as [E|E].
  - pose proof (Z.div_mod M1 (2 ^ n) ltac:(lia)) as D1.
    pose proof (Z.div_mod M2 (2 ^ n) ltac:(lia)) as D2.
    assert (Hr : M1 mod 2 ^ n <= M2 mod 2 ^ n) by (rewrite E in D1; lia).
    destruct (rne_cases M1 n H1 Hn) as [[C1 ->]|[[C1 ->]|[C1 ->]]];
    destruct (rne_cases M2 n HM2 Hn) as [[C2 ->]|[[C2 ->]|[C2 ->]]];
      rewrite ?E; try destruct (Z.even _); lia.
  - pose proof (rne_bounds M1 n H1 Hn). pose proof (rne_bounds M2 n HM2 Hn). lia.
Qed.

Lemma rne_scale M n k :
  0 <= M -> 0 <= n -> 0 <= k -> rne (M * 2 ^ k) (n + k) = rne M n.
Proof.
  intros HM Hn Hk. unfold rne.
  assert (H2n : 0 < 2 ^ n) by (apply Z.pow_pos_nonneg; lia).
  assert (H2k : 0 < 2 ^ k) by (apply Z.pow_pos_nonneg; lia).
  rewrite Z.pow_add_r by lia.
  rewrite Z.div_mul_cancel_r by lia.
  rewrite Z.mul_mod_distr_r by lia.
  f_equal. unfold locof.
  pose proof (Z.mod_pos_bound M (2 ^ n) H2n) as Hrho.
  set (rho := M mod 2 ^ n) in *.
  destruct (Z.eqb_spec rho 0) as [E|E].
  - rewrite E. reflexivity.
  - destruct (Z.eqb_spec (rho * 2 ^ k) 0) as [E'|E']; [nia|].
    f_equal. rewrite Z.pow_add_r by lia.
    replace (2 * (rho * 2 ^ k)) with ((2 * rho) * 2 ^ k) by ring.
    symmetry. apply Zmult_compare_compat_r. lia.
Qed.

Abbreviation fexp64 := (fexp prec emax).
Abbreviation RN M E := (binary_round_aux prec emax false (Zpos M) E loc_Exact).

Definition pack (m e : Z) : spec_float :=
  match m with
  | Z0 => S754_zero false
  | Zpos p =>
      if m =? 2 ^ 53
      then (if e + 1 <=? 971 then S754_finite false (2 ^ 52)%positive (e + 1)
            else S754_infinity false)
      else (if e <=? 971 then S754_finite false p e else S754_infinity false)
  | Zneg _ => S754_nan
  end.

Lemma fexp64_eq e : fexp64 e = Z.max (e - 53) (-1074).
Proof. reflexivity. Qed.

Lemma Zdigits2_bounds m :
  0 < m -> 2 ^ (Zdigits2 m - 1) <= m < 2 ^ Zdigits2 m.
Proof.
  destruct m as [|p|p]; try lia. intros _. apply digits_bounds.
Qed.

Lemma Zdigits2_le m k : 0 < m -> 0 <= k -> m < 2 ^ k -> Zdigits2 m <= k.
Proof.
  intros Hm Hk Hlt. pose proof (Zdigits2_bounds m Hm) as [Hlo _].
  destruct (Z_le_gt_dec (Zdigits2 m) k) as [|Hgt]; [assumption|exfalso].
  assert (2 ^ k <= 2 ^ (Zdigits2 m - 1)) by (apply Z.pow_le_mono_r; lia).
  lia.
Qed.

Lemma Zdigits2_ge m k : 0 < m -> 2 ^ k <= m -> k + 1 <= Zdigits2 m.
Proof.
  intros Hm Hle. pose proof (Zdigits2_bounds m Hm) as [_ Hhi].
  destruct (Z_le_gt_dec (k + 1) (Zdigits2 m)) as [|Hgt]; [assumption|exfalso].
  assert (Hd : 0 <= Zdigits2 m) by (destruct m; simpl; lia).
  assert (2 ^ Zdigits2 m <= 2 ^ k) by (apply Z.pow_le_mono_r; lia).
  lia.
Qed.

Lemma RN_spec M E :
  let n := fexp64 (Zpos (digits2_pos M) + E) - E in
  0 <= n ->
  RN M E = pack (rne (Zpos M) n) (E + n).
Proof.
  intros n Hn. unfold binary_round_aux, shr_fexp.
  cbn [shr_record_of_loc Zdigits2]. fold n.
  destruct (shr_exact (Zpos M) E n ltac:(lia) Hn) as (x & -> & Hxm & Hxl).
  rewrite Hxm, Hxl. fold (rne (Zpos M) n).
  pose proof (digits_bounds M) as [Hdlo Hdhi].
  set (d := Zpos (digits2_pos M)) in *.
  assert (He' : E + n = fexp64 (d + E)) by (unfold n; lia).
  pose proof (fexp64_eq (d + E)) as Hf.
  assert (H2n : 0 < 2 ^ n) by (apply Z.pow_pos_nonneg; lia).
  assert (Hup : rne (Zpos M) n <= 2 ^ 53).
  { apply rne_le_ceil; try lia.
    rewrite <- Z.pow_add_r by lia.
    assert (2 ^ d <= 2 ^ (53 + n)) by (apply Z.pow_le_mono_r; lia). lia. }
  pose proof (rne_bounds (Zpos M) n ltac:(lia) Hn) as [Hlo _].
  assert (Hq : 0 <= Zpos M / 2 ^ n) by (apply Z.div_pos; lia).
  set (m := rne (Zpos M) n) in *.
  set (e' := E + n) in *.
  destruct m as [|p|p] eqn:Em; [| |lia].
  - (* rounded to zero *)
    rewrite shr_noop; [reflexivity|]. cbn [Zdigits2]. rewrite fexp64_eq. lia.
  - destruct (Z.eqb_spec (Zpos p) (2 ^ 53)) as [E53|E53].
    + (* carry: mantissa 2^53 is renormalised *)
      assert (Hd : Zdigits2 (Zpos p) = 54).
      { apply Z.le_antisymm.
        - apply Zdigits2_le; lia.
        - apply (Zdigits2_ge (Zpos p) 53); lia. }
      rewrite Hd, fexp64_eq.
      replace (Z.max (54 + e' - 53) (-1074) - e') with 1 by lia.
      destruct (shr_exact (Zpos p) e' 1 ltac:(lia) ltac:(lia)) as (y & -> & Hym & _).
      rewrite Hym, E53. change (2 ^ 53 / 2 ^ 1) with (Zpos (2 ^ 52)).
      cbv beta iota. unfold pack. rewrite Z.eqb_refl.
      change (emax - prec) with 971. reflexivity.
    + assert (Hd : Zdigits2 (Zpos p) <= 53) by (apply Zdigits2_le; lia).
      rewrite shr_noop by (rewrite fexp64_eq; lia).
      cbn [shr_m]. unfold pack.
      destruct (Z.eqb_spec (Zpos p) (2 ^ 53)); [contradiction|reflexivity].
Qed.

Abbreviation valid x := (valid_binary x = true).

Definition fin_nonneg (x : spec_float) : bool :=
  match x with
  | S754_zero _ | S754_finite false _ _ => true
  | _ => false
  end.

Definition sc (x : spec_float) : Z :=
  match x with
  | S754_finite false m e => Zpos m * 2 ^ (e + 1074)
  | _ => 0
  end.

Lemma bounded_facts m e :
  bounded prec emax m e = true ->
  -1074 <= e <= 971 /\ Zpos (digits2_pos m) <= 53 /\
  (-1074 < e -> Zpos (digits2_pos m) = 53).
Proof.
  unfold bounded, canonical_mantissa. rewrite andb_true_iff, Z.eqb_eq, Z.leb_le.
  rewrite fexp64_eq. change (emax - prec) with 971. lia.
Qed.

Lemma bounded_intro m e :
  -1074 <= e <= 971 -> Zpos (digits2_pos m) <= 53 ->
  (-1074 < e -> Zpos (digits2_pos m) = 53) ->
  bounded prec emax m e = true.
Proof.
  intros. unfold bounded, canonical_mantissa. rewrite andb_true_iff, Z.eqb_eq, Z.leb_le.
  rewrite fexp64_eq. change (emax - prec) with 971. lia.
Qed.

Lemma bounded_mantissa m e :
  bounded prec emax m e = true ->
  Zpos m < 2 ^ 53 /\ (-1074 < e -> 2 ^ 52 <= Zpos m).
Proof.
  intros H. apply bounded_facts in H. destruct H as (He & Hd & Hn).
  pose proof (digits_bounds m) as [Hlo Hhi]. split.
  - assert (2 ^ Zpos (digits2_pos m) <= 2 ^ 53) by (apply Z.pow_le_mono_r; lia). lia.
  - intros Hgt. rewrite (Hn Hgt) in Hlo. exact Hlo.
Qed.

Lemma sc_compare m1 e1 m2 e2 :
  bounded prec emax m1 e1 = true -> bounded prec emax m2 e2 = true ->
  (Zpos m1 * 2 ^ (e1 + 1074) ?= Zpos m2 * 2 ^ (e2 + 1074)) =
  match e1 ?= e2 with
  | Lt => Lt
  | Gt => Gt
  | Eq => Pos.compare_cont Eq m1 m2
  end.
Proof.
  intros B1 B2.
  pose proof (bounded_facts _ _ B1) as (He1 & _ & _).
  pose proof (bounded_facts _ _ B2) as (He2 & _ & _).
  pose proof (bounded_mantissa _ _ B1) as [U1 L1].
  pose proof (bounded_mantissa _ _ B2) as [U2 L2].
  assert (P1 : 0 < 2 ^ (e1 + 1074)) by (apply Z.pow_pos_nonneg; lia).
  assert (P2 : 0 < 2 ^ (e2 + 1074)) by (apply Z.pow_pos_nonneg; lia).
  destruct (Z.compare_spec e1 e2) as [E|E|E].
  - subst e2. change (Pos.compare_cont Eq m1 m2) with (Zpos m1 ?= Zpos m2).
    symmetry. apply Zmult_compare_compat_r. lia.
  - apply Z.compare_lt_iff.
    assert (2 ^ (e1 + 1074) * 2 <= 2 ^ (e2 + 1074)).
    { rewrite <- (Z.pow_1_r 2) at 2. rewrite <- Z.pow_add_r by lia.
      apply Z.pow_le_mono_r; lia. }
    specialize (L2 ltac:(lia)). nia.
  - apply Z.compare_gt_iff.
    assert (2 ^ (e2 + 1074) * 2 <= 2 ^ (e1 + 1074)).
    { rewrite <- (Z.pow_1_r 2) at 2. rewrite <- Z.pow_add_r by lia.
      apply Z.pow_le_mono_r; lia. }
    specialize (L1 ltac:(lia)). nia.
Qed.

Lemma sc_nonneg x : 0 <= sc x.
Proof.
  destruct x as [| | |[|] m e]; cbn [sc]; lia.
Qed.

Lemma sc_pos m e : bounded prec emax m e = true -> 0 < sc (S754_finite false m e).
Proof.
  intros B. pose proof (bounded_facts _ _ B) as (He & _ & _). cbn [sc].
  apply Z.mul_pos_pos; [lia|]. apply Z.pow_pos_nonneg; lia.
Qed.

Lemma SFcompare_sc x y :
  valid x -> valid y -> fin_nonneg x = true -> fin_nonneg y = true ->
  SFcompare x y = Some (sc x ?= sc y).
Proof.
  intros Vx Vy Nx Ny.
  destruct x as [sx| | |[|] mx ex]; try discriminate;
  destruct y as [sy| | |[|] my ey]; try discriminate.
  - reflexivity.
  - pose proof (sc_pos _ _ Vy) as P. cbn [SFcompare].
    f_equal. symmetry. apply Z.compare_lt_iff. exact P.
  - pose proof (sc_pos _ _ Vx) as P. cbn [SFcompare].
    f_equal. symmetry. apply Z.compare_gt_iff. exact P.
  - cbn [SFcompare sc]. f_equal. symmetry. now apply sc_compare.
Qed.

Lemma SFleb_sc x y :
  valid x -> valid y -> fin_nonneg x = true -> fin_nonneg y = true ->
  SFleb x y = true <-> sc x <= sc y.
Proof.
  intros Vx Vy Nx Ny. unfold SFleb. rewrite SFcompare_sc by assumption.
  destruct (Z.compare_spec (sc x) (sc y)); split; intros; try lia; try reflexivity; discriminate.
Qed.

Lemma SFltb_sc x y :
  valid x -> valid y -> fin_nonneg x = true -> fin_nonneg y = true ->
  SFltb x y = true <-> sc x < sc y.
Proof.
  intros Vx Vy Nx Ny. unfold SFltb. rewrite SFcompare_sc by assumption.
  destruct (Z.compare_spec (sc x) (sc y)); split; intros; try lia; try reflexivity; discriminate.
Qed.

Lemma RN_props M E :
  let d := Zpos (digits2_pos M) in
  let n := fexp64 (d + E) - E in
  0 <= n -> d + E <= 1023 ->
  valid (RN M E) /\ fin_nonneg (RN M E) = true /\
  sc (RN M E) = rne (Zpos M) n * 2 ^ (E + n + 1074).
Proof.
  intros d n Hn Hmag. rewrite RN_spec by exact Hn. fold d n.
  pose proof (digits_bounds M) as [Hdlo Hdhi]. fold d in Hdlo, Hdhi.
  pose proof (fexp64_eq (d + E)) as Hf.
  assert (He' : E + n = Z.max (d + E - 53) (-1074)) by (unfold n; lia).
  assert (H2n : 0 < 2 ^ n) by (apply Z.pow_pos_nonneg; lia).
  assert (Hup : rne (Zpos M) n <= 2 ^ 53).
  { apply rne_le_ceil; try lia.
    rewrite <- Z.pow_add_r by lia.
    assert (2 ^ d <= 2 ^ (53 + n)) by (apply Z.pow_le_mono_r; lia). lia. }
  pose proof (rne_bounds (Zpos M) n ltac:(lia) Hn) as [Hlo _].
  assert (Hnorm : -1074 < E + n -> 2 ^ 52 <= Zpos M / 2 ^ n).
  { intros Hgt. apply Z.div_le_lower_bound; [lia|].
    rewrite Z.mul_comm, <- Z.pow_add_r by lia.
    replace (52 + n) with (d - 1) by lia. exact Hdlo. }
  set (m := rne (Zpos M) n) in *. set (e' := E + n) in *.
  unfold pack. destruct m as [|p|p] eqn:Em.
  - repeat split.
  - destruct (Z.eqb_spec (Zpos p) (2 ^ 53)) as [E53|E53].
    + destruct (Z.leb_spec (e' + 1) 971); [|lia].
      split; [|split].
      * apply bounded_intro; [lia|vm_compute; discriminate|reflexivity].
      * reflexivity.
      * cbn [sc]. rewrite E53.
        replace (e' + 1 + 1074) with (1 + (e' + 1074)) by lia.
        rewrite Z.pow_add_r by lia. change (Zpos (2 ^ 52)) with (2 ^ 52).
        change (2 ^ 53) with (2 ^ 52 * 2 ^ 1). ring.
    + destruct (Z.leb_spec e' 971); [|lia].
      split; [|split].
      * assert (Hd53 : Zdigits2 (Zpos p) <= 53) by (apply Zdigits2_le; lia).
        apply bounded_intro; [lia|exact Hd53|].
        intros Hgt. apply Z.le_antisymm; [exact Hd53|].
        apply (Zdigits2_ge (Zpos p) 52); [lia|]. specialize (Hnorm Hgt). lia.
      * reflexivity.
      * reflexivity.
  - exfalso. assert (0 <= Zpos M / 2 ^ n) by (apply Z.div_pos; lia). lia.
Qed.

(** Rounding is monotone in the exact value: [M1 * 2^E1 <= M2 * 2^E2],
    written with a common exponent offset [L]. *)
Lemma RN_mono M1 E1 M2 E2 L :
  let d1 := Zpos (digits2_pos M1) in
  let d2 := Zpos (digits2_pos M2) in
  0 <= fexp64 (d1 + E1) - E1 -> 0 <= fexp64 (d2 + E2) - E2 ->
  d2 + E2 <= 1023 ->
  L <= E1 -> L <= E2 ->
  Zpos M1 * 2 ^ (E1 - L) <= Zpos M2 * 2 ^ (E2 - L) ->
  sc (RN M1 E1) <= sc (RN M2 E2).
Proof.
  intros d1 d2 Hn1 Hn2 Hmag HL1 HL2 Hval.
  pose proof (digits_bounds M1) as [Hd1lo Hd1hi]. fold d1 in Hd1lo, Hd1hi.
  pose proof (digits_bounds M2) as [Hd2lo Hd2hi]. fold d2 in Hd2lo, Hd2hi.
  assert (Hd1 : 1 <= d1) by (unfold d1; lia).
  assert (Hd2 : 1 <= d2) by (unfold d2; lia).
  (* magnitudes are ordered *)
  assert (Hmu : d1 + E1 <= d2 + E2).
  { destruct (Z_le_gt_dec (d1 + E1) (d2 + E2)) as [|Hgt]; [assumption|exfalso].
    assert (P1 : 0 < 2 ^ (E1 - L)) by (apply Z.pow_pos_nonneg; lia).
    assert (P2 : 0 < 2 ^ (E2 - L)) by (apply Z.pow_pos_nonneg; lia).
    assert (A : 2 ^ (d2 + E2 - L) <= 2 ^ (d1 - 1 + (E1 - L)))
      by (apply Z.pow_le_mono_r; lia).
    rewrite Z.pow_add_r in A by lia.
    replace (d2 + E2 - L) with (d2 + (E2 - L)) in A by lia.
    rewrite Z.pow_add_r in A by lia. nia. }
  destruct (RN_props M1 E1 Hn1 ltac:(fold d1; lia)) as (_ & _ & ->).
  destruct (RN_props M2 E2 Hn2 Hmag) as (_ & _ & ->).
  fold d1 d2.
  pose proof (fexp64_eq (d1 + E1)) as Hf1. pose proof (fexp64_eq (d2 + E2)) as Hf2.
  set (n1 := fexp64 (d1 + E1) - E1) in *. set (n2 := fexp64 (d2 + E2) - E2) in *.
  assert (He1 : E1 + n1 = Z.max (d1 + E1 - 53) (-1074)) by (unfold n1; lia).
  assert (He2 : E2 + n2 = Z.max (d2 + E2 - 53) (-1074)) by (unfold n2; lia).
  destruct (Z.eq_dec (E1 + n1) (E2 + n2)) as [Ee|Ee].
  - (* same output exponent: compare the rounded mantissas *)
    rewrite Ee. apply Z.mul_le_mono_nonneg_r; [apply Z.pow_nonneg; lia|].
    rewrite <- (rne_scale (Zpos M1) n1 (E1 - L)) by lia.
    rewrite <- (rne_scale (Zpos M2) n2 (E2 - L)) by lia.
    replace (n2 + (E2 - L)) with (n1 + (E1 - L)) by lia.
    apply rne_mono; [|exact Hval|lia].
    apply Z.mul_nonneg_nonneg; [lia|apply Z.pow_nonneg; lia].
  - (* smaller output exponent: a full binade apart *)
    assert (Hlt : E1 + n1 < E2 + n2) by lia.
    assert (Hup : rne (Zpos M1) n1 <= 2 ^ 53).
    { apply rne_le_ceil; try lia.
      rewrite <- Z.pow_add_r by lia.
      assert (2 ^ d1 <= 2 ^ (53 + n1)) by (apply Z.pow_le_mono_r; lia). lia. }
    assert (Hlo : 2 ^ 52 <= rne (Zpos M2) n2).
    { pose proof (rne_bounds (Zpos M2) n2 ltac:(lia) Hn2) as [Hlo _].
      assert (2 ^ 52 <= Zpos M2 / 2 ^ n2); [|lia].
      apply Z.div_le_lower_bound; [apply Z.pow_pos_nonneg; lia|].
      rewrite Z.mul_comm, <- Z.pow_add_r by lia.
      replace (52 + n2) with (d2 - 1) by lia. exact Hd2lo. }
    assert (P1 : 0 < 2 ^ (E1 + n1 + 1074)) by (apply Z.pow_pos_nonneg; lia).
    assert (A : 2 ^ (E1 + n1 + 1074) * 2 <= 2 ^ (E2 + n2 + 1074)).
    { rewrite <- (Z.pow_1_r 2) at 2. rewrite <- Z.pow_add_r by lia.
      apply Z.pow_le_mono_r; lia. }
    change (2 ^ 53) with (2 ^ 52 * 2) in Hup.
    assert (0 < 2 ^ 52) by lia.
    nia.
Qed.

(** [rounds_at L v z]: the float [z] is the rounding of the exact non-negative
    value [v * 2^L]. *)
Definition rounds_at (L v : Z) (z : spec_float) : Prop :=
  (v = 0 /\ exists s, z = S754_zero s) \/
  (exists M E, L <= E /\ 0 <= fexp64 (Zpos (digits2_pos M) + E) - E /\
     Zpos M * 2 ^ (E - L) = v /\ z = RN M E).

Lemma rounds_magnitude L v M E :
  L <= E -> Zpos M * 2 ^ (E - L) = v -> v < 2 ^ (1023 - L) ->
  Zpos (digits2_pos M) + E <= 1023.
Proof.
  intros HL Hv Hlt. pose proof (digits_bounds M) as [Hlo _].
  set (d := Zpos (digits2_pos M)) in *.
  assert (Hd : 1 <= d) by (unfold d; lia).
  destruct (Z_le_gt_dec (d + E) 1023) as [|Hgt]; [assumption|exfalso].
  assert (P : 0 < 2 ^ (E - L)) by (apply Z.pow_pos_nonneg; lia).
  assert (A : 2 ^ (1023 - L) <= 2 ^ (d - 1 + (E - L))) by (apply Z.pow_le_mono_r; lia).
  rewrite Z.pow_add_r in A by lia. nia.
Qed.

Lemma rounds_valid L v z :
  rounds_at L v z -> v < 2 ^ (1023 - L) -> valid z /\ fin_nonneg z = true.
Proof.
  intros [[_ [s ->]]|(M & E & HL & Hn & Hv & ->)] Hlt; [split; reflexivity|].
  pose proof (rounds_magnitude L v M E HL Hv Hlt) as Hmag.
  destruct (RN_props M E Hn Hmag) as (V & N & _). split; assumption.
Qed.

Lemma rounds_mono L v1 z1 v2 z2 :
  rounds_at L v1 z1 -> rounds_at L v2 z2 ->
  v1 <= v2 -> v2 < 2 ^ (1023 - L) -> sc z1 <= sc z2.
Proof.
  intros [[_ [s ->]]|(M1 & E1 & HL1 & Hn1 & Hv1 & ->)] R2 Hle Hlt.
  - apply sc_nonneg.
  - destruct R2 as [[Hz _]|(M2 & E2 & HL2 & Hn2 & Hv2 & ->)].
    + exfalso. assert (0 < 2 ^ (E1 - L)) by (apply Z.pow_pos_nonneg; lia). nia.
    + apply (RN_mono M1 E1 M2 E2 L); try assumption; [|lia].
      exact (rounds_magnitude L v2 M2 E2 HL2 Hv2 Hlt).
Qed.

Lemma rounds_self x :
  valid x -> fin_nonneg x = true -> rounds_at (-1074) (sc x) x.
Proof.
  intros V N. destruct x as [s| | |[|] m e]; try discriminate.
  - left. split; [reflexivity|now exists s].
  - right. exists m, e.
    pose proof (bounded_facts _ _ V) as (He & Hd & Hnorm).
    pose proof (bounded_mantissa _ _ V) as [Hup _].
    assert (Hn : fexp64 (Zpos (digits2_pos m) + e) - e = 0) by (rewrite fexp64_eq; lia).
    split; [lia|]. split; [lia|]. split.
    + cbn [sc]. replace (e - -1074) with (e + 1074) by lia. reflexivity.
    + rewrite RN_spec by lia. rewrite Hn.
      rewrite rne_exact by (rewrite ?Z.pow_0_r, ?Z.mod_1_r; lia).
      rewrite Z.pow_0_r, Z.div_1_r, Z.add_0_r. unfold pack.
      destruct (Z.eqb_spec (Zpos m) (2 ^ 53)); [lia|].
      destruct (Z.leb_spec e 971); [reflexivity|lia].
Qed.

Lemma Zdigits2_unique m d :
  0 < m -> 2 ^ (d - 1) <= m < 2 ^ d -> 1 <= d -> Zdigits2 m = d.
Proof.
  intros Hm [Hlo Hhi] Hd. apply Z.le_antisymm.
  - apply Zdigits2_le; lia.
  - replace d with (d - 1 + 1) by lia. apply Zdigits2_ge; lia.
Qed.

Lemma digits_mul_ge a b :
  Zpos (digits2_pos a) + Zpos (digits2_pos b) - 1 <= Zpos (digits2_pos (a * b)).
Proof.
  pose proof (digits_bounds a) as [La _]. pose proof (digits_bounds b) as [Lb _].
  change (Zpos (digits2_pos (a * b))) with (Zdigits2 (Zpos (a * b))).
  replace (Zpos (digits2_pos a) + Zpos (digits2_pos b) - 1)
    with (Zpos (digits2_pos a) - 1 + (Zpos (digits2_pos b) - 1) + 1) by lia.
  apply Zdigits2_ge; [lia|].
  rewrite Z.pow_add_r by lia. rewrite Pos2Z.inj_mul.
  apply Z.mul_le_mono_nonneg; try assumption; apply Z.pow_nonneg; lia.
Qed.

Lemma SFmul_rounds x c :
  valid x -> valid c -> fin_nonneg x = true -> fin_nonneg c = true ->
  rounds_at (-2148) (sc x * sc c) (SF64mul x c).
Proof.
  intros Vx Vc Nx Nc.
  destruct x as [sx| | |[|] mx ex]; try discriminate;
  destruct c as [sc0| | |[|] mc ec]; try discriminate.
  - left. split; [reflexivity|eexists; reflexivity].
  - left. split; [reflexivity|eexists; reflexivity].
  - left. split; [cbn [sc]; lia|eexists; reflexivity].
  - right. exists (mx * mc)%positive, (ex + ec).
    pose proof (bounded_facts _ _ Vx) as (Hex & Hdx & Hnx).
    pose proof (bounded_facts _ _ Vc) as (Hec & Hdc & Hnc).
    pose proof (digits_mul_ge mx mc) as Hd.
    split; [lia|]. split; [rewrite fexp64_eq; lia|]. split; [|reflexivity].
    cbn [sc]. rewrite Pos2Z.inj_mul.
    replace (ex + ec - -2148) with ((ex + 1074) + (ec + 1074)) by lia.
    rewrite Z.pow_add_r by lia. ring.
Qed.

Lemma pos_iter_xO m d : Zpos (Pos.iter xO m d) = Zpos m * 2 ^ Zpos d.
Proof.
  induction d as [|d IH] using Pos.peano_ind.
  - cbn [Pos.iter]. rewrite Pos2Z.inj_xO, Z.pow_1_r. lia.
  - rewrite Pos.iter_succ, Pos2Z.inj_xO, IH, Pos2Z.inj_succ, Z.pow_succ_r by lia. ring.
Qed.

Lemma shl_align_spec m e e' :
  exists m', shl_align m e e' = (m', Z.min e e') /\
             Zpos m' = Zpos m * 2 ^ (e - Z.min e e').
Proof.
  unfold shl_align. destruct (e' - e) as [|d|d] eqn:Ed.
  - exists m. replace (Z.min e e') with e by lia.
    rewrite Z.sub_diag, Z.pow_0_r. split; [reflexivity|lia].
  - exists m. replace (Z.min e e') with e by lia.
    rewrite Z.sub_diag, Z.pow_0_r. split; [reflexivity|lia].
  - exists (Pos.iter xO m d). replace (Z.min e e') with e' by lia.
    split; [reflexivity|]. rewrite pos_iter_xO. f_equal. f_equal. lia.
Qed.

Lemma binary_round_rounds M E :
  -1074 <= E ->
  rounds_at (-1074) (Zpos M * 2 ^ (E + 1074)) (binary_round prec emax false M E).
Proof.
  intros HE. unfold binary_round.
  set (f := fexp64 (Zpos (digits2_pos M) + E)).
  destruct (shl_align_spec M E f) as (m' & -> & Hm').
  pose proof (fexp64_eq (Zpos (digits2_pos M) + E)) as Hf. fold f in Hf.
  set (E' := Z.min E f) in *.
  pose proof (digits_bounds M) as [Hlo Hhi].
  set (d := Zpos (digits2_pos M)) in *.
  assert (Hd : 1 <= d) by (unfold d; lia).
  assert (P : 0 < 2 ^ (E - E')) by (apply Z.pow_pos_nonneg; lia).
  assert (Hd' : Zpos (digits2_pos m') = d + (E - E')).
  { change (Zpos (digits2_pos m')) with (Zdigits2 (Zpos m')).
    apply Zdigits2_unique; [lia| |lia].
    rewrite Hm'. replace (d + (E - E') - 1) with (d - 1 + (E - E')) by lia.
    rewrite !Z.pow_add_r by lia. nia. }
  right. exists m', E'. split; [lia|]. split; [|split; [|reflexivity]].
  - rewrite Hd'. replace (d + (E - E') + E') with (d + E) by lia. fold f. lia.
  - rewrite Hm'. rewrite <- Z.mul_assoc, <- Z.pow_add_r by lia. f_equal. f_equal. lia.
Qed.

Lemma SFadd_rounds x y :
  valid x -> valid y -> fin_nonneg x = true -> fin_nonneg y = true ->
  rounds_at (-1074) (sc x + sc y) (SF64add x y).
Proof.
  intros Vx Vy Nx Ny.
  destruct x as [sx| | |[|] mx ex] eqn:Ex; try discriminate;
  destruct y as [sy| | |[|] my ey] eqn:Ey; try discriminate.
  - left. split; [reflexivity|]. destruct sx, sy; eexists; reflexivity.
  - rewrite <- Ey. replace (sc (S754_zero sx) + sc y) with (sc y) by (cbn [sc]; lia).
    subst y. now apply rounds_self.
  - rewrite <- Ex. replace (sc x + sc (S754_zero sy)) with (sc x) by (cbn [sc]; lia).
    subst x. now apply rounds_self.
  - pose proof (bounded_facts _ _ Vx) as (Hex & _ & _).
    pose proof (bounded_facts _ _ Vy) as (Hey & _ & _).
    unfold SF64add, SFadd. cbv zeta.
    set (ez := Z.min ex ey).
    destruct (shl_align_spec mx ex ez) as (a & -> & Ha).
    destruct (shl_align_spec my ey ez) as (b & -> & Hb).
    cbn [fst cond_Zopp Z.add binary_normalize].
    replace (Z.min ex ez) with ez in Ha by lia.
    replace (Z.min ey ez) with ez in Hb by lia.
    replace (sc (S754_finite false mx ex) + sc (S754_finite false my ey))
      with (Zpos (a + b) * 2 ^ (ez + 1074)); [apply binary_round_rounds; lia|].
    cbn [sc]. rewrite Pos2Z.inj_add, Ha, Hb, Z.mul_add_distr_r.
    rewrite <- !Z.mul_assoc, <- !Z.pow_add_r by lia.
    f_equal; f_equal; f_equal; lia.
Qed.

Lemma is_random_facts r :
  is_random r = true -> valid r /\ fin_nonneg r = true /\ sc r <= sc pred_1.
Proof.
  unfold is_random. rewrite !andb_true_iff. intros [[V Hge] Hlt].
  assert (N : fin_nonneg r = true).
  { destruct r as [s|[|]| |[|] m e]; try reflexivity; discriminate. }
  split; [exact V|]. split; [exact N|].
  apply SFltb_sc in Hlt; [|assumption|reflexivity|assumption|reflexivity].
  destruct r as [s| | |[|] m e]; try discriminate N.
  { apply sc_nonneg. }
  pose proof (bounded_facts _ _ V) as (He & _ & _).
  pose proof (bounded_mantissa _ _ V) as [Hup Hnorm].
  change (sc num_1) with (2 ^ 52 * 2 ^ 1022) in Hlt.
  change (sc pred_1) with ((2 ^ 53 - 1) * 2 ^ 1021).
  cbn [sc] in *.
  assert (P : 0 < 2 ^ (e + 1074)) by (apply Z.pow_pos_nonneg; lia).
  destruct (Z_le_gt_dec e (-53)) as [Hle|Hgt].
  - assert (2 ^ (e + 1074) <= 2 ^ 1021) by (apply Z.pow_le_mono_r; lia). nia.
  - exfalso. specialize (Hnorm ltac:(lia)).
    assert (2 ^ 1022 <= 2 ^ (e + 1074)) by (apply Z.pow_le_mono_r; lia). nia.
Qed.

Lemma mul_draw_bounds r c :
  is_random r = true -> valid c -> fin_nonneg c = true ->
  (sc pred_1 * sc c <? 2 ^ 3171) = true ->
  let x := SF64mul r c in
  valid x /\ fin_nonneg x = true /\ sc x <= sc (SF64mul pred_1 c).
Proof.
  intros Hr Vc Nc Hsmall x.
  destruct (is_random_facts r Hr) as (Vr & Nr & Hle).
  apply Z.ltb_lt in Hsmall.
  pose proof (SFmul_rounds r c Vr Vc Nr Nc) as R1.
  pose proof (SFmul_rounds pred_1 c eq_refl Vc eq_refl Nc) as R2.
  pose proof (sc_nonneg c) as Hc. pose proof (sc_nonneg r) as Hr0.
  assert (Hv : sc r * sc c <= sc pred_1 * sc c) by nia.
  change (1023 - -2148) with 3171 in *.
  destruct (rounds_valid _ _ _ R1 ltac:(change (1023 - -2148) with 3171; lia)) as [V N].
  split; [exact V|]. split; [exact N|].
  apply (rounds_mono _ _ _ _ _ R1 R2 Hv). exact Hsmall.
Qed.

Lemma add_bounds c x xmax :
  valid c -> fin_nonneg c = true ->
  valid x -> fin_nonneg x = true ->
  valid xmax -> fin_nonneg xmax = true ->
  sc x <= sc xmax ->
  (sc c + sc xmax <? 2 ^ 2097) = true ->
  (valid (SF64add c x) /\ fin_nonneg (SF64add c x) = true /\
   sc c <= sc (SF64add c x) <= sc (SF64add c xmax)) /\
  (valid (SF64add x c) /\ fin_nonneg (SF64add x c) = true /\
   sc c <= sc (SF64add x c) <= sc (SF64add xmax c)).
Proof.
  intros Vc Nc Vx Nx Vm Nm Hle Hsmall. apply Z.ltb_lt in Hsmall.
  pose proof (sc_nonneg x) as Hx0.
  pose proof (rounds_self c Vc Nc) as R0.
  split.
  - pose proof (SFadd_rounds c x Vc Vx Nc Nx) as R1.
    pose proof (SFadd_rounds c xmax Vc Vm Nc Nm) as R2.
    destruct (rounds_valid _ _ _ R1 ltac:(change (1023 - -1074) with 2097; lia)) as [V N].
    split; [exact V|]. split; [exact N|]. split.
    + apply (rounds_mono _ _ _ _ _ R0 R1); [lia|change (1023 - -1074) with 2097; lia].
    + apply (rounds_mono _ _ _ _ _ R1 R2); [lia|exact Hsmall].
  - pose proof (SFadd_rounds x c Vx Vc Nx Nc) as R1.
    pose proof (SFadd_rounds xmax c Vm Vc Nm Nc) as R2.
    destruct (rounds_valid _ _ _ R1 ltac:(change (1023 - -1074) with 2097; lia)) as [V N].
    split; [exact V|]. split; [exact N|]. split.
    + apply (rounds_mono _ _ _ _ _ R0 R1); [lia|change (1023 - -1074) with 2097; lia].
    + apply (rounds_mono _ _ _ _ _ R1 R2); [lia|change (1023 - -1074) with 2097; lia].
Qed.

(** [c + r * k] and [r * k + c]: between [c] and the sum for the largest
    draw. *)
Lemma draw_affine r k c :
  is_random r = true ->
  valid k -> fin_nonneg k = true -> valid c -> fin_nonneg c = true ->
  (sc pred_1 * sc k <? 2 ^ 3171) = true ->
  (sc c + sc (SF64mul pred_1 k) <? 2 ^ 2097) = true ->
  (valid (SF64add c (SF64mul r k)) /\ fin_nonneg (SF64add c (SF64mul r k)) = true /\
   sc c <= sc (SF64add c (SF64mul r k)) <= sc (SF64add c (SF64mul pred_1 k))) /\
  (valid (SF64add (SF64mul r k) c) /\ fin_nonneg (SF64add (SF64mul r k) c) = true /\
   sc c <= sc (SF64add (SF64mul r k) c) <= sc (SF64add (SF64mul pred_1 k) c)).
Proof.
  intros Hr Vk Nk Vc Nc Hs1 Hs2.
  destruct (mul_draw_bounds r k Hr Vk Nk Hs1) as (Vx & Nx & Hx).
  destruct (mul_draw_bounds pred_1 k eq_refl Vk Nk Hs1) as (Vm & Nm & _).
  exact (add_bounds c _ _ Vc Nc Vx Nx Vm Nm Hx Hs2).
Qed.

(** *** From the integer view to rationals and timeouts *)

Lemma fin_nonneg_scaled x : fin_nonneg x = true -> scaled x = sc x.
Proof. destruct x as [s| | |[|] m e]; try discriminate; reflexivity. Qed.

Lemma toQ_lt x p q : scaled x * Zpos q < p * 2 ^ 1074 -> (toQ x < p # q)%Q.
Proof.
  intros H. unfold Qlt, toQ. cbn [Qnum Qden]. now rewrite Pos2Z.inj_pow.
Qed.

Lemma toQ_ge x p q : p * 2 ^ 1074 <= scaled x * Zpos q -> (p # q <= toQ x)%Q.
Proof.
  intros H. unfold Qle, toQ. cbn [Qnum Qden]. now rewrite Pos2Z.inj_pow.
Qed.

Lemma truncate_sc x :
  valid x -> fin_nonneg x = true -> truncate x = sc x / 2 ^ 1074.
Proof.
  intros V N. destruct x as [s| | |[|] m e]; try discriminate; [reflexivity|].
  pose proof (bounded_facts _ _ V) as (He & _ & _). cbn [truncate sc].
  destruct (Z.leb_spec 0 e) as [H0|H0].
  - assert (E : 2 ^ (e + 1074) = 2 ^ e * 2 ^ 1074) by (rewrite <- Z.pow_add_r; lia).
    rewrite E, Z.mul_assoc, Z.div_mul by lia. reflexivity.
  - assert (E : 2 ^ 1074 = 2 ^ (- e) * 2 ^ (e + 1074))
      by (rewrite <- Z.pow_add_r by lia; f_equal; lia).
    rewrite E, Z.div_mul_cancel_r; [reflexivity| |]; apply Z.pow_nonzero; lia.
Qed.

Lemma timeout_ms_sc x lo hi :
  valid x -> fin_nonneg x = true ->
  0 <= lo -> hi <= 2 ^ 31 ->
  lo * 2 ^ 1074 <= sc x < hi * 2 ^ 1074 ->
  lo <= timeout_ms x < hi.
Proof.
  intros V N Hlo Hhi [H1 H2].
  unfold timeout_ms, ToInt32. rewrite truncate_sc by assumption.
  assert (P : 0 < 2 ^ 1074) by (apply Z.pow_pos_nonneg; lia).
  assert (A : lo <= sc x / 2 ^ 1074) by (apply Z.div_le_lower_bound; lia).
  assert (B : sc x / 2 ^ 1074 < hi) by (apply Z.div_lt_upper_bound; lia).
  set (t := sc x / 2 ^ 1074) in *.
  rewrite Z.mod_small by lia.
  destruct (Z.ltb_spec t (2 ^ 31)); lia.
Qed.

End Binary64.

(** ** The rain particle renderer *)

Module RainEffectProps.

Import Binary64 RainEffect.
Local Open Scope Z_scope.

(** *** Arithmetic on one draw *)

Lemma within_sc lo hi (closed : bool) x :
  valid lo -> fin_nonneg lo = true -> valid hi -> fin_nonneg hi = true ->
  valid x -> fin_nonneg x = true ->
  sc lo <= sc x -> (if closed then sc x <= sc hi else sc x < sc hi) ->
  within lo hi closed x = true.
Proof.
  intros Vl Nl Vh Nh Vx Nx Hlo Hhi. unfold within. apply andb_true_iff. split.
  - now apply SFleb_sc.
  - destruct closed; [now apply SFleb_sc|now apply SFltb_sc].
Qed.

(** [r * c] for a draw [r] and a positive constant [c]: from 0 to the
    product for the largest draw, which is below [c]. *)
Lemma draw_times r c :
  is_random r = true -> valid c -> fin_nonneg c = true ->
  (sc pred_1 * sc c <? 2 ^ 3171) = true ->
  (sc (SF64mul pred_1 c) <? sc c) = true ->
  within num_0 c false (SF64mul r c) = true.
Proof.
  intros Hr Vc Nc Hsmall Hmax.
  destruct (mul_draw_bounds r c Hr Vc Nc Hsmall) as (V & N & Hle).
  apply Z.ltb_lt in Hmax.
  apply (within_sc num_0 c false _ eq_refl eq_refl Vc Nc V N).
  - apply sc_nonneg.
  - lia.
Qed.

Lemma left_range r :
  is_random r = true -> within num_0 num_100 false (r * num_100)%js = true.
Proof. intros Hr. apply (draw_times r num_100 Hr); by_vm. Qed.

Lemma delay_range r :
  is_random r = true -> within num_0 num_2 false (r * num_2)%js = true.
Proof. intros Hr. apply (draw_times r num_2 Hr); by_vm. Qed.

(** [0.5 + r * 0.5]: from 0.5 to the sum for the largest draw, which
    is 1. *)
Lemma duration_range r :
  is_random r = true -> within num_0_5 num_1 true (num_0_5 + r * num_0_5)%js = true.
Proof.
  intros Hr.
  destruct (draw_affine r num_0_5 num_0_5 Hr ltac:(by_vm) ltac:(by_vm) ltac:(by_vm)
              ltac:(by_vm) ltac:(by_vm) ltac:(by_vm)) as [(V & N & Hlo & Hhi) _].
  assert (E : (sc (SF64add num_0_5 (SF64mul pred_1 num_0_5)) <=? sc num_1) = true) by by_vm.
  apply Z.leb_le in E.
  apply (within_sc num_0_5 num_1 true _ ltac:(by_vm) ltac:(by_vm) ltac:(by_vm)
           ltac:(by_vm) V N Hlo).
  lia.
Qed.

(** [r * 0.5 + 0.1]: from 0.1 to the sum for the largest draw, which is
    the double 0.6. *)
Lemma opacity_range r :
  is_random r = true -> within num_0_1 num_0_6 true (r * num_0_5 + num_0_1)%js = true.
Proof.
  intros Hr.
  destruct (draw_affine r num_0_5 num_0_1 Hr ltac:(by_vm) ltac:(by_vm) ltac:(by_vm)
              ltac:(by_vm) ltac:(by_vm) ltac:(by_vm)) as [_ (V & N & Hlo & Hhi)].
  assert (E : (sc (SF64add (SF64mul pred_1 num_0_5) num_0_1) <=? sc num_0_6) = true)
    by by_vm.
  apply Z.leb_le in E.
  apply (within_sc num_0_1 num_0_6 true _ ltac:(by_vm) ltac:(by_vm) ltac:(by_vm)
           ltac:(by_vm) V N Hlo).
  lia.
Qed.

(** *** Drops *)

Lemma makeDrop_ranges random k i :
  (forall n, is_random (random n) = true) -> in_ranges true true (makeDrop random k i).
Proof.
  intros Hr. unfold in_ranges, makeDrop.
  cbn [left animationDuration animationDelay opacity].
  split; [apply left_range, Hr|].
  split; [apply duration_range, Hr|].
  split; [apply delay_range, Hr|apply opacity_range, Hr].
Qed.

Lemma drops_in_ranges random k count d :
  (forall n, is_random (random n) = true) ->
  In d (drops random k count) -> in_ranges true true d.
Proof.
  intros Hr Hd. unfold drops in Hd. apply in_map_iff in Hd.
  destruct Hd as (i & <- & _). now apply makeDrop_ranges.
Qed.

Lemma drops_length random k count : length (drops random k count) = count.
Proof. unfold drops. now rewrite length_map, length_seq. Qed.

(** The largest draw gives a duration of exactly 1 and an opacity of
    exactly the double 0.6. *)
Lemma largest_draw_bounds :
  animationDuration (makeDrop (fun _ => pred_1) 0 0) = num_1 /\
  opacity (makeDrop (fun _ => pred_1) 0 0) = num_0_6.
Proof. split; by_vm. Qed.

(** C6. The particle count is 50 for 'light', 150 for 'medium', 400 for
    'heavy' and 100 for any other value of the prop; it is the number of
    drops rendered. *)
Theorem dropCount_by_intensity :
  dropCount "light" = 50%nat /\ dropCount "medium" = 150%nat /\
  dropCount "heavy" = 400%nat /\
  (forall v : string,
      v <> "light"%string -> v <> "medium"%string -> v <> "heavy"%string ->
      dropCount v = 100%nat) /\
  (forall random k v, length (render random k v) = dropCount v).
Proof.
  repeat split; try reflexivity.
  - intros v H1 H2 H3. unfold dropCount.
    destruct (String.eqb_spec v "light"); [contradiction|].
    destruct (String.eqb_spec v "medium"); [contradiction|].
    destruct (String.eqb_spec v "heavy"); [contradiction|reflexivity].
  - intros random k v. apply drops_length.
Qed.

Lemma dropCount_by_intensity_witness :
  dropCount "drizzle" = 100%nat /\
  length (render (fun _ => num_0_5) 0 "heavy") = 400%nat.
Proof.
  destruct dropCount_by_intensity as (_ & _ & H3 & Hd & Hl). split.
  - apply Hd; discriminate.
  - rewrite Hl. exact H3.
Defined.

(** C7, as stated: every drop has left-offset in [[0,100)], duration in
    [[0.5,1.0)], delay in [[0,2)] and opacity in [[0.1,0.6)]. It fails for
    the duration and for the opacity: with the draw [1 - 2^-53], the sum
    [0.5 + r * 0.5] is halfway between two doubles and rounds to 1, and
    [r * 0.5 + 0.1] rounds to 0.6. Closing only one of the two ranges is not
    enough. *)
Lemma drops_claimed_ranges_fail :
  animationDuration (makeDrop (fun _ => pred_1) 0 0) = num_1 /\
  opacity (makeDrop (fun _ => pred_1) 0 0) = num_0_6 /\
  ~ all_drops_in_ranges false false /\
  ~ all_drops_in_ranges true false /\
  ~ all_drops_in_ranges false true.
Proof.
  destruct largest_draw_bounds as [Hd Ho].
  assert (K : forall dc oc, all_drops_in_ranges dc oc -> dc = true /\ oc = true).
  { intros dc oc H.
    specialize (H (fun _ => pred_1) (fun _ => eq_refl) 0%nat "light"%string
                  (makeDrop (fun _ => pred_1) 0 0)).
    destruct H as (_ & H2 & _ & H4).
    { left. reflexivity. }
    rewrite Hd in H2. rewrite Ho in H4. split.
    - destruct dc; [reflexivity|]. vm_compute in H2. discriminate H2.
    - destruct oc; [reflexivity|]. vm_compute in H4. discriminate H4. }
  split; [exact Hd|]. split; [exact Ho|].
  split; [|split]; intros H; destruct (K _ _ H) as [H1 H2]; discriminate.
Qed.

(** C7, amended: for draws in [[0,1)], every drop has left-offset in
    [[0,100)], duration in [[0.5,1.0]], delay in [[0,2)] and opacity in
    [[0.1,0.6]], each bound the double of its literal and each comparison
    that of the program's numbers. *)
Theorem drops_ranges random k v d :
  (forall n, is_random (random n) = true) ->
  In d (render random k v) -> in_ranges true true d.
Proof. intros Hr. apply drops_in_ranges, Hr. Qed.

Lemma drops_ranges_witness :
  in_ranges true true (makeDrop (fun _ => pred_1) 0 0).
Proof.
  apply (drops_ranges (fun _ => pred_1) 0 "light").
  - intros n. reflexivity.
  - left. reflexivity.
Defined.

End RainEffectProps.

(** ** The page controller *)

Module RainyPageProps.

Import Binary64 RainyPage Observations.

(** *** Rendering *)

Section Rendering.

Variable random : nat -> number.

(** A world in which no effect is waiting to run. *)
Definition quiet (w : World) : Prop :=
  audioDeps (fiber w) = Some (depsOfAudio (hooks w)) /\
  volumeDeps (fiber w) = Some (depsOfVolume (hooks w)) /\
  thunderDeps (fiber w) = Some (depsOfThunder (hooks w)).

Lemma thunderEffect_hooks h q b :
  fst (fst (thunderEffect random h q b)) =
  if bool_decide (weatherIntensity h <> heavy) then setIsThundering false q else q.
Proof. unfold thunderEffect. case_bool_decide; reflexivity. Qed.

Lemma commit_hooks w :
  hooks (commit random w) =
  let h := hooks w in
  let q := if bool_decide (volumeDeps (fiber w) <> Some (depsOfVolume h))
           then volumeEffect h h else h in
  if bool_decide (thunderDeps (fiber w) <> Some (depsOfThunder h))
     && bool_decide (weatherIntensity h <> heavy)
  then setIsThundering false q else q.
Proof.
  unfold commit. cbv zeta.
  destruct (bool_decide (thunderDeps (fiber w) <> _)); cbn [andb]; [|reflexivity].
  match goal with |- context [thunderEffect random ?h ?q ?b] =>
    pose proof (thunderEffect_hooks h q b) as H;
    destruct (thunderEffect random h q b) as [[q' b'] cl] end.
  cbn [fst hooks] in *. exact H.
Qed.

Lemma commit_fiber_deps w :
  audioDeps (fiber (commit random w)) = Some (depsOfAudio (hooks w)) /\
  volumeDeps (fiber (commit random w)) = Some (depsOfVolume (hooks w)) /\
  thunderDeps (fiber (commit random w)) = Some (depsOfThunder (hooks w)).
Proof.
  unfold commit. cbv zeta.
  destruct (if bool_decide (thunderDeps (fiber w) <> _) then _ else _) as [[q b] cl].
  repeat split.
Qed.

Lemma commit_keeps w :
  let h := hooks w in let h' := hooks (commit random w) in
  weatherIntensity h' = weatherIntensity h /\ timeOfDay h' = timeOfDay h /\
  showControls h' = showControls h /\ isMuted h' = isMuted h /\
  windowOpen h' = windowOpen h /\ enableManualThunder h' = enableManualThunder h /\
  surface h' = surface h.
Proof.
  cbv zeta. rewrite commit_hooks. cbv zeta. unfold volumeEffect.
  destruct (bool_decide (volumeDeps _ <> _)), (bool_decide (thunderDeps _ <> _)),
    (bool_decide (weatherIntensity _ <> _)), (windowOpen (hooks w)) eqn:E;
    cbn; rewrite ?E; repeat split.
Qed.

Lemma commit_quiet w : quiet w -> commit random w = w.
Proof.
  intros (HA & HV & HT). unfold commit. cbv zeta.
  rewrite !bool_decide_eq_false_2 by (intros H; now apply H).
  destruct w as [h [a v t c] b]. cbn in *. now subst.
Qed.

Lemma settle_quiet w : quiet (settle random w).
Proof.
  unfold settle, quiet.
  destruct (commit_fiber_deps (commit random w)) as (HA & HV & HT).
  destruct (commit_fiber_deps w) as (_ & HV0 & HT0).
  destruct (commit_keeps w) as (Hw & _ & _ & Hm & Ho & _ & _).
  set (w1 := commit random w) in *.
  assert (Hh : hooks (commit random w1) = hooks w1).
  { rewrite commit_hooks. cbv zeta.
    rewrite (bool_decide_eq_false_2 (volumeDeps (fiber w1) <> _)).
    - rewrite (bool_decide_eq_false_2 (thunderDeps (fiber w1) <> _)); [reflexivity|].
      intros H. apply H. rewrite HT0. unfold depsOfThunder. now rewrite Hw, Hm, Ho.
    - intros H. apply H. rewrite HV0. unfold depsOfVolume. now rewrite Ho. }
  rewrite Hh. repeat split; assumption.
Qed.

(** Two passes are enough: a further render runs no effect and changes
    nothing. *)
Lemma commit_settle w : commit random (settle random w) = settle random w.
Proof. apply commit_quiet, settle_quiet. Qed.

Lemma settle_keeps w :
  let h := hooks w in let h' := hooks (settle random w) in
  weatherIntensity h' = weatherIntensity h /\ timeOfDay h' = timeOfDay h /\
  showControls h' = showControls h /\ isMuted h' = isMuted h /\
  windowOpen h' = windowOpen h /\ enableManualThunder h' = enableManualThunder h /\
  surface h' = surface h.
Proof.
  cbv zeta. unfold settle.
  destruct (commit_keeps (commit random w)) as (A1 & A2 & A3 & A4 & A5 & A6 & A7).
  destruct (commit_keeps w) as (B1 & B2 & B3 & B4 & B5 & B6 & B7).
  repeat split; congruence.
Qed.

(** *** Frame properties of the effects *)

(** Every flash of the automatic loop comes after the previous flash or
    (re)start of the loop by exactly the timeout of a delay
    [5000 + Math.random() * 10000]. *)
Fixpoint flashesOnSchedule (tr : list Obs) : Prop :=
  match tr with
  | [] => True
  | AutoFlash t :: tr' =>
      (exists t0 k, lastLoopTime tr' = Some t0 /\
                    t = (t0 + timeout_ms (thunderDelay (random k)))%Z) /\
      flashesOnSchedule tr'
  | _ :: tr' => flashesOnSchedule tr'
  end.

Lemma lastLoopTime_app new tr :
  Forall besideLoop new -> lastLoopTime (new ++ tr) = lastLoopTime tr.
Proof.
  induction 1 as [|o new Ho _ IH]; [reflexivity|].
  destruct o; cbn in *; try contradiction; exact IH.
Qed.

Lemma flashesOnSchedule_app new tr :
  Forall besideLoop new -> flashesOnSchedule (new ++ tr) <-> flashesOnSchedule tr.
Proof.
  induction 1 as [|o new Ho _ IH]; [reflexivity|].
  destruct o; cbn in *; try contradiction; exact IH.
Qed.

(** What an operation leaves alone: everything but the rain audio element
    and observations beside the loop. *)
Definition sameButAudio (b b' : Env) : Prop :=
  thunderEl b' = thunderEl b /\ timers b' = timers b /\ nextTimer b' = nextTimer b /\
  cells b' = cells b /\ nextCell b' = nextCell b /\ clock b' = clock b /\
  drawn b' = drawn b /\ autoplay b' = autoplay b /\
  exists new, trace b' = new ++ trace b /\ Forall besideLoop new.

Lemma sameButAudio_refl b : sameButAudio b b.
Proof. repeat split. exists []. split; [reflexivity|constructor]. Qed.

Lemma sameButAudio_trans b1 b2 b3 :
  sameButAudio b1 b2 -> sameButAudio b2 b3 -> sameButAudio b1 b3.
Proof.
  intros (A1 & A2 & A3 & A4 & A5 & A6 & A7 & A8 & n1 & E1 & F1)
         (B1 & B2 & B3 & B4 & B5 & B6 & B7 & B8 & n2 & E2 & F2).
  repeat split; try congruence.
  exists (n2 ++ n1). split.
  - rewrite E2, E1. now rewrite app_assoc.
  - apply Forall_app. now split.
Qed.

Lemma assignSrc_same url b : sameButAudio b (assignSrc url b).
Proof. repeat split. exists [RainSrc url]. split; [reflexivity|repeat constructor]. Qed.

Lemma play_same b : sameButAudio b (play b).
Proof.
  unfold play. destruct (autoplay b) eqn:E; repeat split; try (cbn; congruence);
    exists [RainPlay]; (split; [reflexivity|repeat constructor]).
Qed.

Lemma pause_same b : sameButAudio b (pause b).
Proof. repeat split. exists [RainPause]. split; [reflexivity|repeat constructor]. Qed.

Lemma audioEffect_same h b : sameButAudio b (audioEffect h b).
Proof.
  unfold audioEffect. cbv zeta.
  set (b1 := assignLoop true b).
  assert (S1 : sameButAudio b b1) by (repeat split; exists []; split; [reflexivity|constructor]).
  set (b2 := if negb _ then assignSrc _ b1 else b1).
  assert (S2 : sameButAudio b b2).
  { unfold b2. destruct (negb _); [|exact S1].
    eapply sameButAudio_trans; [exact S1|apply assignSrc_same]. }
  set (b3 := assignVolume (volume h) b2).
  assert (S3 : sameButAudio b b3).
  { eapply sameButAudio_trans; [exact S2|].
    repeat split. exists []. split; [reflexivity|constructor]. }
  destruct (isMuted h).
  - eapply sameButAudio_trans; [exact S3|apply pause_same].
  - destruct (_ || _); [|exact S3].
    eapply sameButAudio_trans; [exact S3|apply play_same].
Qed.

Lemma audioEffect_element h b :
  src (audioEl (audioEffect h b)) = AUDIO_SOURCES (surface h) (weatherIntensity h) /\
  el_volume (audioEl (audioEffect h b)) = volume h.
Proof.
  unfold audioEffect. cbv zeta.
  destruct (String.eqb_spec (src (audioEl (assignLoop true b)))
              (AUDIO_SOURCES (surface h) (weatherIntensity h))) as [E|E];
    cbn [negb]; destruct (isMuted h); cbn [orb];
    unfold play, pause;
    repeat match goal with |- context [if ?c then _ else _] => destruct c end;
    cbn; auto.
Qed.

(** *** The invariant of rendering

    [Consistent w] holds between any two renders; what it says about an
    effect is conditional on that effect having run for the current state. *)

Record Consistent (w : World) : Prop := {
  c_volume :
    volumeDeps (fiber w) = Some (depsOfVolume (hooks w)) ->
    volume (hooks w) = if windowOpen (hooks w) then num_0_8 else num_0_3;
  c_audio :
    audioDeps (fiber w) = Some (depsOfAudio (hooks w)) ->
    src (audioEl (env w)) = AUDIO_SOURCES (surface (hooks w)) (weatherIntensity (hooks w)) /\
    el_volume (audioEl (env w)) = volume (hooks w);
  c_fresh :
    forall id t, timers (env w) !! id = Some t -> id < nextTimer (env w);
  c_ticks :
    forall id t c m o,
      timers (env w) !! id = Some t -> callback t = ThunderTick c m o ->
      thunderCleanup (fiber w) = Some c /\ cells (env w) !! c = Some id;
  c_due :
    forall id t, timers (env w) !! id = Some t -> (clock (env w) <= due t)%Z;
  c_cell :
    forall c id,
      thunderCleanup (fiber w) = Some c -> cells (env w) !! c = Some id ->
      id < nextTimer (env w) /\
      forall t, timers (env w) !! id = Some t -> callback t <> ClearFlash;
  c_idle :
    thunderDeps (fiber w) = Some (depsOfThunder (hooks w)) ->
    weatherIntensity (hooks w) <> heavy -> thunderCleanup (fiber w) = None;
  c_loop :
    thunderDeps (fiber w) = Some (depsOfThunder (hooks w)) ->
    weatherIntensity (hooks w) = heavy ->
    exists c id t k,
      thunderCleanup (fiber w) = Some c /\ cells (env w) !! c = Some id /\
      timers (env w) !! id = Some t /\
      callback t = ThunderTick c (isMuted (hooks w)) (windowOpen (hooks w)) /\
      delay t = thunderDelay (random k) /\
      lastLoopTime (trace (env w)) = Some (setAt t);
  c_schedule : flashesOnSchedule (trace (env w))
}.

(** The cleanup phase of a re-run of the thunder effect removes every
    pending [ThunderTick]. *)
Definition cleanupPhase (f : Fiber) (b : Env) : Env :=
  match thunderCleanup f with Some c => thunderCleanupFn c b | None => b end.

Lemma cleanupPhase_spec f b :
  (forall id t c m o,
      timers b !! id = Some t -> callback t = ThunderTick c m o ->
      thunderCleanup f = Some c /\ cells b !! c = Some id) ->
  let b' := cleanupPhase f b in
  audioEl b' = audioEl b /\ thunderEl b' = thunderEl b /\ nextTimer b' = nextTimer b /\
  cells b' = cells b /\ nextCell b' = nextCell b /\ clock b' = clock b /\
  drawn b' = drawn b /\ autoplay b' = autoplay b /\ trace b' = trace b /\
  (forall id t, timers b' !! id = Some t ->
                timers b !! id = Some t /\ callback t = ClearFlash).
Proof.
  intros Hticks. unfold cleanupPhase, thunderCleanupFn.
  destruct (thunderCleanup f) as [c|] eqn:Ec.
  - destruct (cells b !! c) as [id0|] eqn:Eid; cbn.
    + repeat split; try reflexivity.
      * apply lookup_delete_Some in H. tauto.
      * apply lookup_delete_Some in H. destruct H as [Hne Ht].
        destruct (callback t) as [c' m o|] eqn:Ecb; [exfalso|reflexivity].
        destruct (Hticks id t c' m o Ht Ecb) as [Hc Hid]. congruence.
    + repeat split; try reflexivity; try assumption.
      destruct (callback t) as [c' m o|] eqn:Ecb; [exfalso|reflexivity].
      destruct (Hticks id t c' m o H Ecb) as [Hc Hid]. congruence.
  - cbn. repeat split; try reflexivity; try assumption.
    destruct (callback t) as [c' m o|] eqn:Ecb; [exfalso|reflexivity].
    destruct (Hticks id t c' m o H Ecb) as [Hc Hid]. congruence.
Qed.

(** The environment after the cleanup phase and the audio effect of a
    commit, and the state queued by the volume effect. *)
Definition afterAudio (w : World) : Env :=
  let h := hooks w in
  let b := if bool_decide (thunderDeps (fiber w) <> Some (depsOfThunder h))
           then cleanupPhase (fiber w) (env w) else env w in
  if bool_decide (audioDeps (fiber w) <> Some (depsOfAudio h))
  then audioEffect h b else b.

Definition afterVolume (w : World) : Hooks :=
  if bool_decide (volumeDeps (fiber w) <> Some (depsOfVolume (hooks w)))
  then volumeEffect (hooks w) (hooks w) else hooks w.

Definition depsNow (h : Hooks) (cl : option nat) : Fiber :=
  {| audioDeps := Some (depsOfAudio h); volumeDeps := Some (depsOfVolume h);
     thunderDeps := Some (depsOfThunder h); thunderCleanup := cl |}.

(** The environment after the thunder effect scheduled its first timer. *)
Definition loopStarted (h : Hooks) (b : Env) : Env :=
  {| audioEl := audioEl b; thunderEl := thunderEl b;
     timers := <[nextTimer b :=
                  {| callback := ThunderTick (nextCell b) (isMuted h) (windowOpen h);
                     delay := thunderDelay (random (drawn b)); setAt := clock b |}]>
               (timers b);
     nextTimer := S (nextTimer b);
     cells := <[nextCell b := nextTimer b]> (cells b); nextCell := S (nextCell b);
     clock := clock b; drawn := S (drawn b); autoplay := autoplay b;
     trace := LoopStart (clock b) :: trace b |}.

Lemma commit_eq w :
  commit random w =
  let h := hooks w in
  if bool_decide (thunderDeps (fiber w) <> Some (depsOfThunder h))
  then if bool_decide (weatherIntensity h <> heavy)
       then {| hooks := setIsThundering false (afterVolume w);
               fiber := depsNow h None; env := afterAudio w |}
       else {| hooks := afterVolume w;
               fiber := depsNow h (Some (nextCell (afterAudio w)));
               env := loopStarted h (afterAudio w) |}
  else {| hooks := afterVolume w; fiber := depsNow h (thunderCleanup (fiber w));
          env := afterAudio w |}.
Proof.
  unfold commit, afterAudio, afterVolume, cleanupPhase. cbv zeta.
  destruct (bool_decide (thunderDeps (fiber w) <> _)); [|reflexivity].
  unfold thunderEffect. destruct (bool_decide (weatherIntensity _ <> _)); reflexivity.
Qed.

Lemma afterVolume_keeps w :
  let h := hooks w in let q := afterVolume w in
  weatherIntensity q = weatherIntensity h /\ isMuted q = isMuted h /\
  windowOpen q = windowOpen h /\ surface q = surface h /\
  isThundering q = isThundering h /\
  enableManualThunder q = enableManualThunder h.
Proof.
  cbv zeta. unfold afterVolume, volumeEffect.
  destruct (bool_decide _), (windowOpen (hooks w)) eqn:E; cbn; rewrite ?E; repeat split.
Qed.

Lemma afterVolume_volume w :
  (volumeDeps (fiber w) = Some (depsOfVolume (hooks w)) ->
   volume (hooks w) = if windowOpen (hooks w) then num_0_8 else num_0_3) ->
  volume (afterVolume w) = if windowOpen (hooks w) then num_0_8 else num_0_3.
Proof.
  intros H. unfold afterVolume, volumeEffect. case_bool_decide as Hd.
  - destruct (windowOpen (hooks w)); reflexivity.
  - apply H. destruct (decide (volumeDeps (fiber w) = Some (depsOfVolume (hooks w))));
      [assumption|contradiction].
Qed.

Lemma afterAudio_spec w :
  Consistent w ->
  let b := env w in let b' := afterAudio w in
  thunderEl b' = thunderEl b /\ nextTimer b' = nextTimer b /\
  cells b' = cells b /\ nextCell b' = nextCell b /\ clock b' = clock b /\
  drawn b' = drawn b /\ autoplay b' = autoplay b /\
  (exists new, trace b' = new ++ trace b /\ Forall besideLoop new) /\
  (if bool_decide (thunderDeps (fiber w) <> Some (depsOfThunder (hooks w)))
   then forall id t, timers b' !! id = Some t ->
                     timers b !! id = Some t /\ callback t = ClearFlash
   else timers b' = timers b) /\
  (if bool_decide (audioDeps (fiber w) <> Some (depsOfAudio (hooks w)))
   then src (audioEl b') =
          AUDIO_SOURCES (surface (hooks w)) (weatherIntensity (hooks w)) /\
        el_volume (audioEl b') = volume (hooks w)
   else audioEl b' = audioEl b).
Proof.
  intros C. cbv zeta. unfold afterAudio. cbv zeta.
  pose proof (cleanupPhase_spec (fiber w) (env w) (c_ticks w C)) as HC. cbv zeta in HC.
  destruct HC as (C1 & C2 & C3 & C4 & C5 & C6 & C7 & C8 & C9 & C10).
  set (b1 := if bool_decide (thunderDeps _ <> _) then _ else env w).
  assert (S1 : thunderEl b1 = thunderEl (env w) /\ nextTimer b1 = nextTimer (env w) /\
                cells b1 = cells (env w) /\ nextCell b1 = nextCell (env w) /\
                clock b1 = clock (env w) /\ drawn b1 = drawn (env w) /\
                autoplay b1 = autoplay (env w) /\ trace b1 = trace (env w) /\
                audioEl b1 = audioEl (env w)).
  { unfold b1. destruct (bool_decide _); repeat split; assumption. }
  destruct S1 as (A1 & A2 & A3 & A4 & A5 & A6 & A7 & A8 & A9).
  assert (T1 : if bool_decide (thunderDeps (fiber w) <> Some (depsOfThunder (hooks w)))
               then forall id t, timers b1 !! id = Some t ->
                     timers (env w) !! id = Some t /\ callback t = ClearFlash
               else timers b1 = timers (env w)).
  { unfold b1. destruct (bool_decide _); [exact C10|reflexivity]. }
  clearbody b1.
  destruct (bool_decide (audioDeps _ <> _)).
  - destruct (audioEffect_same (hooks w) b1)
      as (B1 & B2 & B3 & B4 & B5 & B6 & B7 & B8 & new & En & Fn).
    repeat split; try congruence.
    + exists new. split; [congruence|exact Fn].
    + rewrite B2. exact T1.
    + apply audioEffect_element.
    + apply audioEffect_element.
  - repeat split; try assumption.
    exists []. split; [exact A8|constructor].
Qed.

Ltac hooks_simpl :=
  cbn [weatherIntensity timeOfDay showControls isMuted windowOpen volume isThundering
       enableManualThunder surface setWeatherIntensity setTimeOfDay setShowControls
       setIsMuted setWindowOpen setVolume setIsThundering setEnableManualThunder
       setSurface depsOfAudio depsOfVolume depsOfThunder] in *.

Lemma commit_Consistent w : Consistent w -> Consistent (commit random w).
Proof.
  intros C. rewrite commit_eq. cbv zeta.
  pose proof (afterAudio_spec w C) as HA. cbv zeta in HA.
  destruct HA as (A1 & A2 & A3 & A4 & A5 & A6 & A7 & (new & En & Fn) & AT & AA).
  pose proof (afterVolume_keeps w) as HK. cbv zeta in HK.
  destruct HK as (K1 & K2 & K3 & K4 & K5 & K6).
  pose proof (afterVolume_volume w (c_volume w C)) as HV.
  assert (Haudio :
    volume (afterVolume w) = volume (hooks w) ->
    src (audioEl (afterAudio w)) =
      AUDIO_SOURCES (surface (hooks w)) (weatherIntensity (hooks w)) /\
    el_volume (audioEl (afterAudio w)) = volume (afterVolume w)).
  { intros Ev. rewrite Ev.
    destruct (decide (audioDeps (fiber w) = Some (depsOfAudio (hooks w)))) as [Hd|Hd].
    - rewrite bool_decide_eq_false_2 in AA by (intros H; now apply H).
      rewrite AA. apply (c_audio w C Hd).
    - rewrite bool_decide_eq_true_2 in AA by exact Hd. exact AA. }
  assert (Hsame : forall q : Hooks,
    weatherIntensity q = weatherIntensity (hooks w) -> isMuted q = isMuted (hooks w) ->
    surface q = surface (hooks w) ->
    Some (depsOfAudio (hooks w)) = Some (depsOfAudio q) -> volume q = volume (hooks w)).
  { intros q _ _ _ Hq. unfold depsOfAudio in Hq. congruence. }
  assert (Hsched : flashesOnSchedule (trace (afterAudio w))).
  { rewrite En. apply flashesOnSchedule_app; [exact Fn|apply (c_schedule w C)]. }
  destruct (decide (thunderDeps (fiber w) = Some (depsOfThunder (hooks w)))) as [HT'|HT];
    [rewrite bool_decide_eq_false_2 in AT |- * by (intros H; now apply H)
    |rewrite bool_decide_eq_true_2 in AT |- * by exact HT]; swap 1 2.
  - destruct (decide (weatherIntensity (hooks w) = heavy)) as [Hheavy|HH];
      [rewrite bool_decide_eq_false_2 by (intros H; now apply H)
      |rewrite bool_decide_eq_true_2 by exact HH]; swap 1 2.
    + (* the thunder effect ran and found the intensity below heavy *)
      split; cbn [hooks fiber env depsNow audioDeps volumeDeps thunderDeps thunderCleanup].
      * intros _. hooks_simpl. rewrite K3. exact HV.
      * intros Hd. hooks_simpl. rewrite K1, K4. apply Haudio.
        unfold depsOfAudio in Hd. hooks_simpl. congruence.
      * intros id t Ht. rewrite A2. apply AT in Ht. apply (c_fresh w C id t), Ht.
      * intros id t c m o Ht Hcb. apply AT in Ht. destruct Ht as [_ Hcl]. congruence.
      * intros id t Ht. rewrite A5. apply AT in Ht. apply (c_due w C id t), Ht.
      * discriminate.
      * reflexivity.
      * intros _ Hheavy. hooks_simpl. rewrite K1 in Hheavy. contradiction.
      * exact Hsched.
    + (* the thunder effect ran and started the loop *)
      split; cbn [hooks fiber env depsNow audioDeps volumeDeps thunderDeps thunderCleanup
                  loopStarted timers nextTimer cells trace audioEl].
      * intros _. rewrite K3. exact HV.
      * intros Hd. rewrite K1, K4. apply Haudio. now apply Hsame.
      * intros id t Ht. apply lookup_insert_Some in Ht. destruct Ht as [[<- _]|[_ Ht]]; [lia|].
        apply AT in Ht. pose proof (c_fresh w C id t (proj1 Ht)). lia.
      * intros id t c m o Ht Hcb. apply lookup_insert_Some in Ht.
        destruct Ht as [[<- <-]|[_ Ht]].
        -- cbn in Hcb. injection Hcb as <- _ _. split; [reflexivity|].
           apply lookup_insert_eq.
        -- apply AT in Ht. destruct Ht as [_ Hcl]. congruence.
      * intros id t Ht. cbn [clock loopStarted]. apply lookup_insert_Some in Ht.
        destruct Ht as [[_ <-]|[_ Ht]].
        -- unfold due, timeout_ms. cbn [setAt delay]. lia.
        -- rewrite A5. apply AT in Ht. apply (c_due w C id t), Ht.
      * intros c id Hc Hid. injection Hc as <-. rewrite lookup_insert_eq in Hid.
        injection Hid as <-. split; [lia|]. intros t Ht.
        rewrite lookup_insert_eq in Ht. injection Ht as <-. discriminate.
      * intros _ Hn. rewrite K1 in Hn. contradiction.
      * intros _ _. eexists _, _, _, _. split; [reflexivity|].
        split; [apply lookup_insert_eq|]. split; [apply lookup_insert_eq|].
        cbn. rewrite K2, K3. repeat split.
      * cbn. exact Hsched.
  - (* the thunder effect did not run *)
    split; cbn [hooks fiber env depsNow audioDeps volumeDeps thunderDeps thunderCleanup].
    + intros _. rewrite K3. exact HV.
    + intros Hd. rewrite K1, K4. apply Haudio. now apply Hsame.
    + intros id t Ht. rewrite A2, AT in *. apply (c_fresh w C id t Ht).
    + intros id t c m o Ht Hcb. rewrite A3, AT in *. apply (c_ticks w C id t c m o Ht Hcb).
    + intros id t Ht. rewrite A5, AT in *. apply (c_due w C id t Ht).
    + intros c id Hc Hid. rewrite A2, A3, AT in *. apply (c_cell w C c id Hc Hid).
    + intros _ Hn. rewrite K1 in Hn. apply (c_idle w C HT' Hn).
    + intros _ Hn. rewrite K1 in Hn.
      destruct (c_loop w C HT' Hn) as (c & id & t & k & L1 & L2 & L3 & L4 & L5 & L6).
      exists c, id, t, k. rewrite A3, AT, K2, K3, En.
      rewrite lastLoopTime_app by exact Fn. repeat split; assumption.
    + exact Hsched.
Qed.

Lemma settle_Consistent w : Consistent w -> Consistent (settle random w).
Proof. intros C. unfold settle. now do 2 apply commit_Consistent. Qed.

(** *** The invariant of reachable worlds *)

Definition Inv (w : World) : Prop := Consistent w /\ quiet w.

Lemma rerender_Inv w q b :
  Consistent {| hooks := q; fiber := fiber w; env := b |} ->
  Inv (rerender random w (q, b)).
Proof.
  intros C. split; [apply settle_Consistent, C|apply settle_quiet].
Qed.

Lemma Inv_firstRender : Consistent firstRender.
Proof.
  split; cbn; try discriminate; intros; exact I.
Qed.

Lemma Inv_mounted : Inv (mounted random).
Proof. split; [apply settle_Consistent, Inv_firstRender|apply settle_quiet]. Qed.

(** A handler that leaves the volume, the [timerRef] objects and the pending
    [ThunderTick]s alone keeps the world consistent. *)
Lemma Consistent_update w q b' :
  Inv w ->
  volume q = volume (hooks w) ->
  el_volume (audioEl b') = el_volume (audioEl (env w)) ->
  (depsOfAudio q = depsOfAudio (hooks w) ->
   src (audioEl b') = AUDIO_SOURCES (surface q) (weatherIntensity q)) ->
  nextTimer (env w) <= nextTimer b' ->
  (forall id t, timers b' !! id = Some t ->
     timers (env w) !! id = Some t \/
     (callback t = ClearFlash /\ nextTimer (env w) <= id < nextTimer b')) ->
  (forall id t, timers (env w) !! id = Some t -> callback t <> ClearFlash ->
     timers b' !! id = Some t) ->
  (forall id t, timers b' !! id = Some t -> (clock b' <= due t)%Z) ->
  cells b' = cells (env w) ->
  (exists new, trace b' = new ++ trace (env w) /\ Forall besideLoop new) ->
  Consistent {| hooks := q; fiber := fiber w; env := b' |}.
Proof.
  intros [C (QA & QV & QT)] Hvol Hel Hsrc Hnext Hsub Hkeep Hdue Hcells (new & En & Fn).
  split; cbn [hooks fiber env].
  - intros Hd. rewrite QV in Hd. injection Hd as Hd. unfold depsOfVolume in Hd.
    rewrite Hvol, <- Hd. apply (c_volume w C QV).
  - intros Hd. rewrite QA in Hd. injection Hd as Hd. split.
    + apply Hsrc. unfold depsOfAudio. congruence.
    + rewrite Hel, Hvol. apply (c_audio w C QA).
  - intros id t Ht. destruct (Hsub id t Ht) as [Ho|[_ Hlt]]; [|lia].
    pose proof (c_fresh w C id t Ho). lia.
  - intros id t c m o Ht Hcb. destruct (Hsub id t Ht) as [Ho|[Hcl _]]; [|congruence].
    rewrite Hcells. apply (c_ticks w C id t c m o Ho Hcb).
  - exact Hdue.
  - intros c id Hc Hid. rewrite Hcells in Hid.
    destruct (c_cell w C c id Hc Hid) as [Hlt Hno]. split; [lia|].
    intros t Ht. destruct (Hsub id t Ht) as [Ho|[_ Hge]]; [now apply Hno|lia].
  - intros Hd Hn. rewrite QT in Hd. injection Hd as Hd1 Hd2 Hd3.
    apply (c_idle w C QT). congruence.
  - intros Hd Hn. rewrite QT in Hd. injection Hd as Hd1 Hd2 Hd3.
    destruct (c_loop w C QT ltac:(congruence))
      as (c & id & t & k & L1 & L2 & L3 & L4 & L5 & L6).
    exists c, id, t, k. rewrite Hcells, En, lastLoopTime_app by exact Fn.
    repeat split; try assumption.
    + apply Hkeep; [exact L3|]. rewrite L4. discriminate.
    + rewrite L4. congruence.
  - rewrite En. apply flashesOnSchedule_app; [exact Fn|apply (c_schedule w C)].
Qed.

(** A handler that only sets state other than the volume. *)
Lemma Consistent_setState w q b' :
  Inv w ->
  volume q = volume (hooks w) ->
  audioEl b' = audioEl (env w) -> timers b' = timers (env w) ->
  nextTimer b' = nextTimer (env w) -> cells b' = cells (env w) ->
  trace b' = trace (env w) ->
  (forall id t, timers b' !! id = Some t -> (clock b' <= due t)%Z) ->
  Consistent {| hooks := q; fiber := fiber w; env := b' |}.
Proof.
  intros I Hvol Ha Ht Hn Hc Htr Hdue. pose proof I as [C (QA & _)].
  apply Consistent_update; try assumption.
  - now rewrite Ha.
  - intros Hd. rewrite Ha. unfold depsOfAudio in Hd.
    destruct (c_audio w C QA) as [-> _]. congruence.
  - lia.
  - intros id t H. left. now rewrite <- Ht.
  - intros id t H _. now rewrite Ht.
  - exists []. split; [exact Htr|constructor].
Qed.

(** *** Handlers and timer callbacks *)

Lemma thunderSound_frame m o b :
  let b' := thunderSound m o b in
  audioEl b' = audioEl b /\ timers b' = timers b /\ nextTimer b' = nextTimer b /\
  cells b' = cells b /\ nextCell b' = nextCell b /\ clock b' = clock b /\
  drawn b' = drawn b /\ autoplay b' = autoplay b /\
  trace b' = (if m then [] else [ThunderPlay (if o then num_1 else num_0_5)]) ++ trace b.
Proof. unfold thunderSound. destruct m; cbn; repeat split. Qed.

Lemma handleIntensityChange_spec i h b :
  let q := fst (handleIntensityChange i h b) in
  let b' := snd (handleIntensityChange i h b) in
  q = setIsMuted false (setWeatherIntensity i h) /\
  src (audioEl b') = AUDIO_SOURCES (surface h) i /\
  el_volume (audioEl b') = el_volume (audioEl b) /\
  sameButAudio b b' /\
  ((src (audioEl b) = AUDIO_SOURCES (surface h) i /\ b' = b) \/
   (src (audioEl b) <> AUDIO_SOURCES (surface h) i /\
    trace b' = RainPlay :: RainSrc (AUDIO_SOURCES (surface h) i) :: trace b)).
Proof.
  cbv zeta. unfold handleIntensityChange. cbv zeta.
  destruct (String.eqb_spec (src (audioEl b)) (AUDIO_SOURCES (surface h) i)) as [E|E];
    cbn [negb fst snd].
  - repeat split; try assumption; try reflexivity.
    + exists []. split; [reflexivity|constructor].
    + left. split; [assumption|reflexivity].
  - split; [reflexivity|]. split; [|split; [|split]].
    + unfold play. destruct (autoplay _); reflexivity.
    + unfold play. destruct (autoplay _); reflexivity.
    + eapply sameButAudio_trans; [apply assignSrc_same|apply play_same].
    + right. split; [assumption|]. unfold play. destruct (autoplay _); reflexivity.
Qed.

Lemma triggerManualThunder_spec h b :
  let q := fst (triggerManualThunder h b) in
  let b' := snd (triggerManualThunder h b) in
  q = setIsThundering true h /\
  audioEl b' = audioEl b /\
  timers b' = <[nextTimer b := {| callback := ClearFlash; delay := num_1000;
                                  setAt := clock b |}]> (timers b) /\
  nextTimer b' = S (nextTimer b) /\ cells b' = cells b /\ clock b' = clock b /\
  trace b' = (if isMuted h then []
              else [ThunderPlay (if windowOpen h then num_1 else num_0_5)])
             ++ ManualFlash (clock b) :: trace b.
Proof.
  cbv zeta. unfold triggerManualThunder, thunderSound, setTimeout.
  destruct (isMuted h); cbn; repeat split.
Qed.

Lemma runCallback_tick c m o h b :
  let q := fst (runCallback random (ThunderTick c m o) h b) in
  let b' := snd (runCallback random (ThunderTick c m o) h b) in
  q = setIsThundering true h /\
  audioEl b' = audioEl b /\
  timers b' =
    <[S (nextTimer b) := {| callback := ThunderTick c m o;
                            delay := thunderDelay (random (drawn b));
                            setAt := clock b |}]>
      (<[nextTimer b := {| callback := ClearFlash; delay := num_1000;
                           setAt := clock b |}]> (timers b)) /\
  nextTimer b' = S (S (nextTimer b)) /\
  cells b' = <[c := S (nextTimer b)]> (cells b) /\ clock b' = clock b /\
  drawn b' = S (drawn b) /\
  trace b' = (if m then [] else [ThunderPlay (if o then num_1 else num_0_5)])
             ++ AutoFlash (clock b) :: trace b.
Proof.
  cbv zeta. unfold runCallback, randomInterval, Math_random, thunderSound, setTimeout.
  destruct m; cbn; repeat split.
Qed.

Lemma besideLoop_thunderPlay (m : bool) v :
  Forall besideLoop (if m then [] else [ThunderPlay v]).
Proof. destruct m; repeat constructor. Qed.

(** What the handler of an event (or the callback of a timer) does before
    React renders again. *)
Definition handle (e : Event) (w : World) : option (Hooks * Env) :=
  let h := hooks w in
  let b := env w in
  match e with
  | ClickIntensity i => Some (handleIntensityChange i h b)
  | ClickTimeOfDay t => Some (setTimeOfDay t h, b)
  | ClickControlsToggle => Some (setShowControls (negb (showControls h)) h, b)
  | SelectSurface s => Some (setSurface s h, b)
  | SwitchSound c => Some (setIsMuted (negb c) h, b)
  | SwitchWindow c => Some (setWindowOpen c h, b)
  | SwitchManualThunder c => Some (setEnableManualThunder c h, b)
  | ClickTriggerThunder =>
      if enableManualThunder h then Some (triggerManualThunder h b) else None
  | TimerFires id =>
      match timers b !! id with
      | Some t =>
          if bool_decide (clock b = due t)
          then Some (runCallback random (callback t) h (clearTimeout id b))
          else None
      | None => None
      end
  | Elapse dt =>
      if bool_decide (0 < dt)%Z
         && bool_decide (map_Forall (fun _ t => (clock b + dt <= due t)%Z) (timers b))
      then Some (h, withClock (clock b + dt) b)
      else None
  | Autoplay a => Some (h, withAutoplay a b)
  end.

Lemma step_handle e w :
  step random e w = option_map (rerender random w) (handle e w).
Proof.
  destruct e; cbn [step handle option_map]; try reflexivity.
  - destruct (enableManualThunder (hooks w)); reflexivity.
  - destruct (timers (env w) !! id); [|reflexivity].
    destruct (bool_decide _); reflexivity.
  - destruct (_ && _); reflexivity.
Qed.

Lemma step_inv e w w' :
  step random e w = Some w' ->
  exists q b, handle e w = Some (q, b) /\ w' = rerender random w (q, b).
Proof.
  rewrite step_handle. destruct (handle e w) as [[q b]|]; [|discriminate].
  intros H. injection H as <-. now exists q, b.
Qed.

Lemma setState_Consistent w q :
  Inv w -> volume q = volume (hooks w) ->
  Consistent {| hooks := q; fiber := fiber w; env := env w |}.
Proof.
  intros I Hv. apply Consistent_setState; auto. apply (c_due w (proj1 I)).
Qed.

Lemma handle_Consistent e w q b :
  Inv w -> handle e w = Some (q, b) ->
  Consistent {| hooks := q; fiber := fiber w; env := b |}.
Proof.
  intros I Hstep. pose proof I as [C (QA & QV & QT)].
  destruct e as [i|t| |s|c|c|c| |id|dt|a]; cbn [handle] in Hstep.
  - (* ClickIntensity *)
    pose proof (handleIntensityChange_spec i (hooks w) (env w)) as H. cbv zeta in H.
    assert (Hq : handleIntensityChange i (hooks w) (env w) = (q, b)) by congruence.
    rewrite Hq in H.
    cbn [fst snd] in H. destruct H as (-> & Hsrc & Hel & Hsame & _).
    destruct Hsame as (S1 & S2 & S3 & S4 & S5 & S6 & S7 & S8 & new & En & Fn).
    refine (Consistent_update w _ b I _ _ _ _ _ _ _ _ _).
    + reflexivity.
    + exact Hel.
    + intros _. exact Hsrc.
    + lia.
    + intros id t H. left. now rewrite <- S2.
    + intros id t H _. now rewrite S2.
    + intros id t H. rewrite S2 in H. rewrite S6. apply (c_due w C id t H).
    + exact S4.
    + now exists new.
  - injection Hstep as <- <-. now apply setState_Consistent.
  - injection Hstep as <- <-. now apply setState_Consistent.
  - injection Hstep as <- <-. now apply setState_Consistent.
  - injection Hstep as <- <-. now apply setState_Consistent.
  - injection Hstep as <- <-. now apply setState_Consistent.
  - injection Hstep as <- <-. now apply setState_Consistent.
  - (* ClickTriggerThunder *)
    destruct (enableManualThunder (hooks w)); [|discriminate].
    pose proof (triggerManualThunder_spec (hooks w) (env w)) as H. cbv zeta in H.
    assert (Hq : triggerManualThunder (hooks w) (env w) = (q, b)) by congruence.
    rewrite Hq in H.
    cbn [fst snd] in H. destruct H as (-> & Ha & Ht & Hn & Hc & Hk & Htr).
    refine (Consistent_update w _ b I _ _ _ _ _ _ _ _ _).
    + reflexivity.
    + now rewrite Ha.
    + intros _. rewrite Ha. apply (c_audio w C QA).
    + lia.
    + intros id t H. rewrite Ht in H. apply lookup_insert_Some in H.
      destruct H as [[<- <-]|[_ H]]; [right; split; [reflexivity|lia]|now left].
    + intros id t H _. rewrite Ht. rewrite lookup_insert_ne; [exact H|].
      pose proof (c_fresh w C id t H). lia.
    + intros id t H. rewrite Ht in H. rewrite Hk. apply lookup_insert_Some in H.
      destruct H as [[_ <-]|[_ H]]; [|apply (c_due w C id t H)].
      unfold due, timeout_ms. cbn [setAt delay]. lia.
    + exact Hc.
    + exists ((if isMuted (hooks w) then []
               else [ThunderPlay (if windowOpen (hooks w) then num_1 else num_0_5)])
              ++ [ManualFlash (clock (env w))]).
      split; [rewrite Htr, <- app_assoc; reflexivity|].
      apply Forall_app. split; [apply besideLoop_thunderPlay|repeat constructor].
  - (* TimerFires *)
    destruct (timers (env w) !! id) as [t|] eqn:Et; [|discriminate].
    case_bool_decide as Hdue; [|discriminate].
    assert (Hq : runCallback random (callback t) (hooks w) (clearTimeout id (env w)) = (q, b))
      by congruence.
    clear Hstep. destruct (callback t) as [c m o|] eqn:Ecb.
    + (* a tick of the automatic loop *)
      destruct (c_ticks w C id t c m o Et Ecb) as [Hcl Hcell].
      assert (Hheavy : weatherIntensity (hooks w) = heavy).
      { destruct (decide (weatherIntensity (hooks w) = heavy)) as [|Hn]; [assumption|].
        pose proof (c_idle w C QT Hn). congruence. }
      destruct (c_loop w C QT Hheavy) as (c0 & id0 & t0 & k & L1 & L2 & L3 & L4 & L5 & L6).
      assert (c0 = c) by congruence. subst c0.
      assert (id0 = id) by congruence. subst id0.
      assert (t0 = t) by congruence. subst t0.
      rewrite Ecb in L4. injection L4 as -> ->.
      pose proof (runCallback_tick c (isMuted (hooks w)) (windowOpen (hooks w))
                    (hooks w) (clearTimeout id (env w))) as H. cbv zeta in H.
      rewrite Hq in H.
      cbn [fst snd clearTimeout withTimers timers nextTimer cells clock drawn trace audioEl]
        in H.
      destruct H as (-> & Ha & Ht & Hn & Hc & Hk & Hdr & Htr).
      split; cbn [hooks fiber env]; hooks_simpl.
      * intros _. apply (c_volume w C QV).
      * intros _. rewrite Ha. apply (c_audio w C QA).
      * intros id' t' H. rewrite Ht in H. rewrite Hn.
        apply lookup_insert_Some in H. destruct H as [[<- _]|[_ H]]; [lia|].
        apply lookup_insert_Some in H. destruct H as [[<- _]|[_ H]]; [lia|].
        apply lookup_delete_Some in H. pose proof (c_fresh w C id' t' (proj2 H)). lia.
      * intros id' t' c' m' o' H Hcb. rewrite Ht in H. rewrite Hc.
        apply lookup_insert_Some in H. destruct H as [[<- <-]|[_ H]].
        -- cbn in Hcb. injection Hcb as <- _ _. split; [exact Hcl|apply lookup_insert_eq].
        -- apply lookup_insert_Some in H. destruct H as [[_ <-]|[_ H]]; [discriminate|].
           apply lookup_delete_Some in H. destruct H as [Hne H].
           destruct (c_ticks w C id' t' c' m' o' H Hcb) as [Hc1 Hc2]. congruence.
      * intros id' t' H. rewrite Ht in H. rewrite Hk.
        apply lookup_insert_Some in H. destruct H as [[_ <-]|[_ H]];
          [unfold due, timeout_ms; cbn [setAt delay]; lia|].
        apply lookup_insert_Some in H. destruct H as [[_ <-]|[_ H]];
          [unfold due, timeout_ms; cbn [setAt delay]; lia|].
        apply lookup_delete_Some in H. apply (c_due w C id' t' (proj2 H)).
      * intros c' id' Hc' Hid'. rewrite Hc in Hid'. rewrite Hn, Ht.
        assert (c' = c) by congruence. subst c'. rewrite lookup_insert_eq in Hid'.
        injection Hid' as <-. split; [lia|]. intros t' Ht'.
        rewrite lookup_insert_eq in Ht'. injection Ht' as <-. discriminate.
      * intros _ Hnh. contradiction.
      * intros _ _. eexists c, _, _, _. rewrite Ht, Hc, Htr.
        split; [exact Hcl|]. split; [apply lookup_insert_eq|].
        split; [apply lookup_insert_eq|].
        rewrite lastLoopTime_app by apply besideLoop_thunderPlay.
        repeat split.
      * rewrite Htr. apply flashesOnSchedule_app; [apply besideLoop_thunderPlay|].
        cbn [flashesOnSchedule]. split; [|apply (c_schedule w C)].
        exists (setAt t), k. split; [exact L6|]. rewrite Hdue. unfold due. now rewrite L5.
    + (* the end of a flash *)
      cbn [runCallback] in Hq. injection Hq as <- <-.
      refine (Consistent_update w _ (clearTimeout id (env w)) I _ _ _ _ _ _ _ _ _);
        cbn [clearTimeout withTimers audioEl timers nextTimer cells trace clock].
      * reflexivity.
      * reflexivity.
      * intros _. apply (c_audio w C QA).
      * lia.
      * intros id' t' H. left. apply lookup_delete_Some in H. tauto.
      * intros id' t' H Hn. apply lookup_delete_Some. split; [congruence|exact H].
      * intros id' t' H. apply lookup_delete_Some in H. apply (c_due w C id' t' (proj2 H)).
      * reflexivity.
      * exists []. split; [reflexivity|constructor].
  - (* Elapse *)
    destruct (bool_decide (0 < dt)%Z) eqn:Hdt; [|discriminate].
    case_bool_decide as Hall; [|discriminate]. injection Hstep as <- <-.
    apply Consistent_setState; auto.
  - injection Hstep as <- <-. apply Consistent_setState; auto.
    apply (c_due w C).
Qed.

Lemma step_Inv e w w' : Inv w -> step random e w = Some w' -> Inv w'.
Proof.
  intros I Hstep. destruct (step_inv e w w' Hstep) as (q & b & Hh & ->).
  apply rerender_Inv, (handle_Consistent e w q b I Hh).
Qed.

Lemma reachable_Inv w : reachable random w -> Inv w.
Proof.
  induction 1 as [|e w w' _ IH Hstep]; [apply Inv_mounted|exact (step_Inv e w w' IH Hstep)].
Qed.

(** *** Timers and observations along a step *)

(** Timer ids are never reused: a later timer table holds timers of the
    earlier one, unchanged, and timers with fresh ids. *)
Definition timersGrow (b b' : Env) : Prop :=
  nextTimer b <= nextTimer b' /\
  forall id t, timers b' !! id = Some t ->
               timers b !! id = Some t \/ nextTimer b <= id.

Lemma timersGrow_refl b : timersGrow b b.
Proof. split; [lia|]. intros id t H. now left. Qed.

Lemma timersGrow_trans b1 b2 b3 :
  timersGrow b1 b2 -> timersGrow b2 b3 -> timersGrow b1 b3.
Proof.
  intros [N1 H1] [N2 H2]. split; [lia|]. intros id t H.
  destruct (H2 id t H) as [H'|H']; [|right; lia].
  destruct (H1 id t H') as [H''|H'']; [now left|now right].
Qed.

Lemma timersGrow_same b b' :
  timers b' = timers b -> nextTimer b' = nextTimer b -> timersGrow b b'.
Proof. intros Ht Hn. split; [lia|]. intros id t H. left. now rewrite <- Ht. Qed.

Lemma cleanupPhase_grow f b : timersGrow b (cleanupPhase f b).
Proof.
  unfold cleanupPhase, thunderCleanupFn.
  destruct (thunderCleanup f) as [c|]; [|apply timersGrow_refl].
  destruct (cells b !! c) as [id0|]; [|apply timersGrow_refl].
  split; [cbn; lia|]. intros id t H. left. cbn in H.
  apply lookup_delete_Some in H. tauto.
Qed.

Lemma cleanupPhase_trace f b : trace (cleanupPhase f b) = trace b.
Proof.
  unfold cleanupPhase, thunderCleanupFn.
  destruct (thunderCleanup f) as [c|]; [|reflexivity].
  destruct (cells b !! c); reflexivity.
Qed.

Lemma afterAudio_same w :
  sameButAudio
    (if bool_decide (thunderDeps (fiber w) <> Some (depsOfThunder (hooks w)))
     then cleanupPhase (fiber w) (env w) else env w)
    (afterAudio w).
Proof.
  unfold afterAudio. cbv zeta.
  destruct (bool_decide (audioDeps _ <> _));
    [apply audioEffect_same|apply sameButAudio_refl].
Qed.

Lemma afterAudio_grow w : timersGrow (env w) (afterAudio w).
Proof.
  destruct (afterAudio_same w) as (_ & Ht & Hn & _).
  eapply timersGrow_trans; [|apply (timersGrow_same _ _ Ht Hn)].
  destruct (bool_decide _); [apply cleanupPhase_grow|apply timersGrow_refl].
Qed.

Lemma afterAudio_trace w :
  exists new, trace (afterAudio w) = new ++ trace (env w) /\ Forall besideLoop new.
Proof.
  destruct (afterAudio_same w) as (_ & _ & _ & _ & _ & _ & _ & _ & new & En & Fn).
  exists new. split; [|exact Fn]. rewrite En.
  destruct (bool_decide _); [now rewrite cleanupPhase_trace|reflexivity].
Qed.

Lemma commit_grow w : timersGrow (env w) (env (commit random w)).
Proof.
  rewrite commit_eq. cbv zeta. pose proof (afterAudio_grow w) as [N G].
  destruct (bool_decide (thunderDeps _ <> _)); [|split; assumption].
  destruct (bool_decide (weatherIntensity _ <> _)); [split; assumption|].
  split; cbn [env loopStarted nextTimer timers]; [lia|].
  intros id t H. apply lookup_insert_Some in H.
  destruct H as [[<- _]|[_ H]]; [right; lia|now apply G].
Qed.

Lemma settle_grow w : timersGrow (env w) (env (settle random w)).
Proof. eapply timersGrow_trans; apply commit_grow. Qed.

Lemma flashTimes_app new tr :
  Forall notFlash new -> flashTimes (new ++ tr) = flashTimes tr.
Proof.
  induction 1 as [|o new Ho _ IH]; [reflexivity|].
  destruct o; cbn in *; try contradiction; exact IH.
Qed.

Lemma besideLoop_notFlash new : Forall besideLoop new -> Forall notFlash new.
Proof.
  induction 1 as [|o new Ho _ IH]; constructor; [|exact IH].
  destruct o; cbn in *; tauto.
Qed.

Lemma commit_trace w :
  exists new, trace (env (commit random w)) = new ++ trace (env w) /\
              Forall notFlash new.
Proof.
  rewrite commit_eq. cbv zeta. destruct (afterAudio_trace w) as (new & En & Fn).
  apply besideLoop_notFlash in Fn.
  destruct (bool_decide (thunderDeps _ <> _)); [|now exists new].
  destruct (bool_decide (weatherIntensity _ <> _)); [now exists new|].
  exists (LoopStart (clock (afterAudio w)) :: new). cbn [env loopStarted trace].
  split; [now rewrite En|]. constructor; [exact I|exact Fn].
Qed.

Lemma settle_trace w :
  exists new, trace (env (settle random w)) = new ++ trace (env w) /\
              Forall notFlash new.
Proof.
  unfold settle. destruct (commit_trace (commit random w)) as (n2 & E2 & F2).
  destruct (commit_trace w) as (n1 & E1 & F1).
  exists (n2 ++ n1). split; [now rewrite E2, E1, app_assoc|].
  apply Forall_app. now split.
Qed.

(** One pass is enough when the volume effect does not run. *)
Lemma settle_one_pass w :
  volumeDeps (fiber w) = Some (depsOfVolume (hooks w)) ->
  settle random w = commit random w.
Proof.
  intros HV. unfold settle. apply commit_quiet.
  destruct (commit_fiber_deps w) as (FA & FV & FT).
  assert (Hh : depsOfAudio (hooks (commit random w)) = depsOfAudio (hooks w) /\
               depsOfVolume (hooks (commit random w)) = depsOfVolume (hooks w) /\
               depsOfThunder (hooks (commit random w)) = depsOfThunder (hooks w)).
  { rewrite commit_hooks. cbv zeta.
    rewrite (bool_decide_eq_false_2 (volumeDeps (fiber w) <> _))
      by (intros H; now apply H).
    destruct (_ && _); repeat split. }
  destruct Hh as (HA & HV' & HT).
  unfold quiet. rewrite FA, FV, FT, HA, HV', HT. repeat split.
Qed.

Lemma rerender_grow w q b :
  timersGrow (env w) b -> timersGrow (env w) (env (rerender random w (q, b))).
Proof.
  intros G. eapply timersGrow_trans; [exact G|].
  unfold rerender. cbn [fst snd].
  apply (settle_grow {| hooks := q; fiber := fiber w; env := b |}).
Qed.

Lemma step_grow e w w' :
  step random e w = Some w' -> timersGrow (env w) (env w').
Proof.
  intros Hstep.
  destruct e as [i|t| |s|c|c|c| |id|dt|a]; cbn [step] in Hstep;
    try (injection Hstep as <-; apply rerender_grow, timersGrow_refl).
  - injection Hstep as <-.
    pose proof (handleIntensityChange_spec i (hooks w) (env w)) as H. cbv zeta in H.
    destruct (handleIntensityChange i (hooks w) (env w)) as [q b'].
    cbn [fst snd] in H. destruct H as (_ & _ & _ & (_ & Ht & Hn & _) & _).
    apply rerender_grow. now apply timersGrow_same.
  - destruct (enableManualThunder (hooks w)); [|discriminate]. injection Hstep as <-.
    pose proof (triggerManualThunder_spec (hooks w) (env w)) as H. cbv zeta in H.
    destruct (triggerManualThunder (hooks w) (env w)) as [q b'].
    cbn [fst snd] in H. destruct H as (_ & _ & Ht & Hn & _).
    apply rerender_grow. split; [lia|]. intros id t H. rewrite Ht in H.
    apply lookup_insert_Some in H. destruct H as [[<- _]|[_ H]]; [right; lia|now left].
  - destruct (timers (env w) !! id) as [t|] eqn:Et; [|discriminate].
    case_bool_decide as Hdue; [|discriminate]. injection Hstep as <-.
    destruct (callback t) as [c m o|].
    + pose proof (runCallback_tick c m o (hooks w) (clearTimeout id (env w))) as H.
      cbv zeta in H.
      destruct (runCallback random _ (hooks w) (clearTimeout id (env w))) as [q b'].
      cbn [fst snd clearTimeout withTimers timers nextTimer] in H.
      destruct H as (_ & _ & Ht & Hn & _).
      apply rerender_grow. split; [lia|]. intros id' t' H. rewrite Ht in H.
      apply lookup_insert_Some in H. destruct H as [[<- _]|[_ H]]; [right; lia|].
      apply lookup_insert_Some in H. destruct H as [[<- _]|[_ H]]; [right; lia|].
      apply lookup_delete_Some in H. left. tauto.
    + cbn [runCallback]. apply rerender_grow. split; [cbn; lia|].
      intros id' t' H. cbn in H. apply lookup_delete_Some in H. left. tauto.
  - destruct (_ && _); [|discriminate]. injection Hstep as <-.
    apply rerender_grow, timersGrow_same; reflexivity.
  - injection Hstep as <-. apply rerender_grow, timersGrow_same; reflexivity.
Qed.

Lemma rerender_trace w q b new :
  trace b = new ++ trace (env w) -> Forall notFlash new ->
  exists new', trace (env (rerender random w (q, b))) = new' ++ trace (env w) /\
               Forall notFlash new'.
Proof.
  intros En Fn. unfold rerender. cbn [fst snd].
  destruct (settle_trace {| hooks := q; fiber := fiber w; env := b |}) as (n & E & F).
  cbn [env] in E. exists (n ++ new). split; [now rewrite E, En, app_assoc|].
  apply Forall_app. now split.
Qed.

(** Only a tick of the automatic loop adds a flash of the loop to the
    observations. *)
Lemma step_trace e w w' :
  step random e w = Some w' ->
  (forall id t, e = TimerFires id -> timers (env w) !! id = Some t ->
                callback t = ClearFlash) ->
  exists new, trace (env w') = new ++ trace (env w) /\ Forall notFlash new.
Proof.
  intros Hstep Hno.
  destruct e as [i|t| |s|c|c|c| |id|dt|a]; cbn [step] in Hstep;
    try (injection Hstep as <-; apply (rerender_trace w _ _ []); [reflexivity|constructor]).
  - injection Hstep as <-.
    pose proof (handleIntensityChange_spec i (hooks w) (env w)) as H. cbv zeta in H.
    destruct (handleIntensityChange i (hooks w) (env w)) as [q b'].
    cbn [fst snd] in H.
    destruct H as (_ & _ & _ & (_ & _ & _ & _ & _ & _ & _ & _ & new & En & Fn) & _).
    apply (rerender_trace w _ _ new En). now apply besideLoop_notFlash.
  - destruct (enableManualThunder (hooks w)); [|discriminate]. injection Hstep as <-.
    pose proof (triggerManualThunder_spec (hooks w) (env w)) as H. cbv zeta in H.
    destruct (triggerManualThunder (hooks w) (env w)) as [q b'].
    cbn [fst snd] in H. destruct H as (_ & _ & _ & _ & _ & _ & Htr).
    eapply (rerender_trace w _ _ (_ ++ [ManualFlash _])).
    + rewrite Htr, <- app_assoc. reflexivity.
    + apply Forall_app. split; [|repeat constructor].
      destruct (isMuted (hooks w)); repeat constructor.
  - destruct (timers (env w) !! id) as [t|] eqn:Et; [|discriminate].
    case_bool_decide as Hdue; [|discriminate]. injection Hstep as <-.
    rewrite (Hno id t eq_refl Et). cbn [runCallback].
    apply (rerender_trace w _ _ []); [reflexivity|constructor].
  - destruct (_ && _); [|discriminate]. injection Hstep as <-.
    apply (rerender_trace w _ _ []); [reflexivity|constructor].
Qed.

Lemma rerender_weather w q b :
  weatherIntensity (hooks (rerender random w (q, b))) = weatherIntensity q.
Proof.
  unfold rerender. cbn [fst snd].
  apply (settle_keeps {| hooks := q; fiber := fiber w; env := b |}).
Qed.

(** Only the intensity buttons change the intensity. *)
Lemma step_weather e w w' :
  step random e w = Some w' ->
  weatherIntensity (hooks w') =
  match e with ClickIntensity i => i | _ => weatherIntensity (hooks w) end.
Proof.
  intros Hstep.
  destruct e as [i|t| |s|c|c|c| |id|dt|a]; cbn [step] in Hstep;
    try (injection Hstep as <-; rewrite rerender_weather; reflexivity).
  - injection Hstep as <-.
    pose proof (handleIntensityChange_spec i (hooks w) (env w)) as H. cbv zeta in H.
    destruct (handleIntensityChange i (hooks w) (env w)) as [q b'].
    cbn [fst snd] in H. destruct H as (-> & _). rewrite rerender_weather; reflexivity.
  - destruct (enableManualThunder (hooks w)); [|discriminate]. injection Hstep as <-.
    pose proof (triggerManualThunder_spec (hooks w) (env w)) as H. cbv zeta in H.
    destruct (triggerManualThunder (hooks w) (env w)) as [q b'].
    cbn [fst snd] in H. destruct H as (-> & _). rewrite rerender_weather; reflexivity.
  - destruct (timers (env w) !! id) as [t|] eqn:Et; [|discriminate].
    case_bool_decide as Hdue; [|discriminate]. injection Hstep as <-.
    destruct (callback t) as [c m o|].
    + pose proof (runCallback_tick c m o (hooks w) (clearTimeout id (env w))) as H.
      cbv zeta in H.
      destruct (runCallback random _ (hooks w) (clearTimeout id (env w))) as [q b'].
      cbn [fst snd] in H. destruct H as (-> & _). rewrite rerender_weather; reflexivity.
    + cbn [runCallback]. rewrite rerender_weather; reflexivity.
  - destruct (_ && _); [|discriminate]. injection Hstep as <-. rewrite rerender_weather; reflexivity.
Qed.

(** Below heavy, no tick of the automatic loop is pending. *)
Lemma idle_timers w :
  Inv w -> weatherIntensity (hooks w) <> heavy ->
  forall id t, timers (env w) !! id = Some t -> callback t = ClearFlash.
Proof.
  intros [C (_ & _ & QT)] Hn id t Ht.
  destruct (callback t) as [c m o|] eqn:Ecb; [exfalso|reflexivity].
  destruct (c_ticks w C id t c m o Ht Ecb) as [Hc _].
  pose proof (c_idle w C QT Hn). congruence.
Qed.

(** *** Volume and audio source *)

(** C3, amended: once the effects of mounting or of an event have settled,
    the volume is 0.8 when the window is open and 0.3 when it is closed, in
    state and on the audio element. *)
Theorem volume_follows_window w :
  reachable random w -> volumeFollowsWindow w.
Proof.
  intros R. destruct (reachable_Inv w R) as [C (QA & QV & _)]. split.
  - apply (c_volume w C QV).
  - apply (c_audio w C QA).
Qed.

Lemma reachable_src w :
  reachable random w ->
  src (audioEl (env w)) = AUDIO_SOURCES (surface (hooks w)) (weatherIntensity (hooks w)).
Proof.
  intros R. destruct (reachable_Inv w R) as [C (QA & _)]. apply (c_audio w C QA).
Qed.

(** C9. Selecting an intensity always succeeds, sets [weatherIntensity] to
    the selected value and sets [isMuted] to false, whatever it was. *)
Theorem intensity_click_unmutes w i :
  fst (handleIntensityChange i (hooks w) (env w)) =
    setIsMuted false (setWeatherIntensity i (hooks w)) /\
  exists w', step random (ClickIntensity i) w = Some w' /\
             weatherIntensity (hooks w') = i /\ isMuted (hooks w') = false.
Proof.
  split; [apply handleIntensityChange_spec|].
  eexists. split; [reflexivity|]. unfold rerender.
  match goal with |- context [settle random ?w0] =>
    destruct (settle_keeps w0) as (K1 & _ & _ & K4 & _) end.
  cbn [hooks fiber env] in K1, K4. rewrite K1, K4.
  pose proof (handleIntensityChange_spec i (hooks w) (env w)) as H. cbv zeta in H.
  destruct H as (-> & _). split; reflexivity.
Qed.

(** The same URL for the three intensities of a surface. *)
Lemma AUDIO_SOURCES_surface s i j : AUDIO_SOURCES s i = AUDIO_SOURCES s j.
Proof. destruct s, i, j; reflexivity. Qed.

(** C5. Every surface maps its three intensities to one URL; so in a
    reachable world the handler of the intensity buttons finds the element's
    source equal to its target and does not touch the element, and the
    source is the same after the event. *)
Theorem intensity_never_changes_source :
  (forall s, AUDIO_SOURCES s light = AUDIO_SOURCES s medium /\
             AUDIO_SOURCES s medium = AUDIO_SOURCES s heavy) /\
  (forall w i, reachable random w ->
     src (audioEl (env w)) = AUDIO_SOURCES (surface (hooks w)) i /\
     snd (handleIntensityChange i (hooks w) (env w)) = env w /\
     forall w', step random (ClickIntensity i) w = Some w' ->
                src (audioEl (env w')) = src (audioEl (env w))).
Proof.
  split; [intros s; split; apply AUDIO_SOURCES_surface|].
  intros w i R. pose proof (reachable_src w R) as Hs.
  rewrite (AUDIO_SOURCES_surface _ _ i) in Hs. split; [exact Hs|]. split.
  - unfold handleIntensityChange. cbv zeta. rewrite Hs, String.eqb_refl. reflexivity.
  - intros w' Hstep.
    rewrite (reachable_src w' (reachable_step random _ _ _ R Hstep)).
    cbn [step] in Hstep. injection Hstep as <-. unfold rerender.
    match goal with |- context [settle random ?w0] =>
      destruct (settle_keeps w0) as (K1 & _ & _ & _ & _ & _ & K7) end.
    cbn [hooks fiber env] in K1, K7. rewrite K1, K7.
    pose proof (handleIntensityChange_spec i (hooks w) (env w)) as H. cbv zeta in H.
    destruct H as (-> & _). hooks_simpl. exact (eq_sym Hs).
Qed.

(** *** Leaving heavy rain *)

Lemma commit_isThundering_false w :
  isThundering (hooks w) = false -> isThundering (hooks (commit random w)) = false.
Proof.
  intros H. rewrite commit_hooks. cbv zeta. unfold volumeEffect.
  destruct (bool_decide (volumeDeps _ <> _)), (_ && _), (windowOpen (hooks w));
    cbn; try reflexivity; exact H.
Qed.

Lemma commit_stops_flash w :
  thunderDeps (fiber w) <> Some (depsOfThunder (hooks w)) ->
  weatherIntensity (hooks w) <> heavy ->
  isThundering (hooks (commit random w)) = false.
Proof.
  intros HT Hn. rewrite commit_hooks. cbv zeta.
  rewrite (bool_decide_eq_true_2 _ HT), (bool_decide_eq_true_2 _ Hn). reflexivity.
Qed.

Lemma reachable_run es w w' :
  reachable random w -> run random es w = Some w' -> reachable random w'.
Proof.
  revert w. induction es as [|e es IH]; intros w R Hrun; cbn in Hrun.
  - now injection Hrun as <-.
  - destruct (step random e w) as [w1|] eqn:E; [|discriminate].
    apply (IH w1); [|exact Hrun]. exact (reachable_step random e w w1 R E).
Qed.

(** Below heavy and without a click on the Storm button, the intensity
    stays below heavy and the automatic loop produces no flash. *)
Lemma idle_run es w w' :
  reachable random w -> weatherIntensity (hooks w) <> heavy ->
  (forall e, In e es -> e <> ClickIntensity heavy) ->
  run random es w = Some w' ->
  weatherIntensity (hooks w') <> heavy /\
  flashTimes (trace (env w')) = flashTimes (trace (env w)).
Proof.
  revert w. induction es as [|e es IH]; intros w R Hn Hes Hrun; cbn in Hrun.
  - injection Hrun as <-. now split.
  - destruct (step random e w) as [w1|] eqn:E; [|discriminate].
    assert (Hn1 : weatherIntensity (hooks w1) <> heavy).
    { rewrite (step_weather e w w1 E).
      destruct e; try exact Hn. intros ->. apply (Hes (ClickIntensity heavy)); [|reflexivity].
      now left. }
    destruct (step_trace e w w1 E) as (new & En & Fn).
    { intros id t _ Ht. exact (idle_timers w (reachable_Inv w R) Hn id t Ht). }
    destruct (IH w1 (reachable_step random e w w1 R E) Hn1) as [H1 H2]; [|exact Hrun|].
    { intros e' He'. apply Hes. now right. }
    split; [exact H1|]. rewrite H2, En. now apply flashTimes_app.
Qed.

(** C1. When the intensity goes from heavy to another value, the pending
    timer of the automatic loop is cleared and [isThundering] is false; from
    then on, until the Storm button is clicked again, no timer of the loop
    is pending and the loop produces no flash. *)
Theorem leaving_heavy_stops_thunder w i w' :
  reachable random w -> weatherIntensity (hooks w) = heavy -> i <> heavy ->
  step random (ClickIntensity i) w = Some w' ->
  (exists c id0 t0,
      thunderCleanup (fiber w) = Some c /\ cells (env w) !! c = Some id0 /\
      timers (env w) !! id0 = Some t0 /\
      callback t0 = ThunderTick c (isMuted (hooks w)) (windowOpen (hooks w)) /\
      timers (env w') !! id0 = None) /\
  isThundering (hooks w') = false /\
  forall es w'',
    (forall e, In e es -> e <> ClickIntensity heavy) ->
    run random es w' = Some w'' ->
    weatherIntensity (hooks w'') <> heavy /\
    (forall id t, timers (env w'') !! id = Some t -> callback t = ClearFlash) /\
    flashTimes (trace (env w'')) = flashTimes (trace (env w)).
Proof.
  intros R Hheavy Hi Hstep.
  pose proof (reachable_Inv w R) as [C (QA & QV & QT)].
  pose proof (reachable_step random _ w w' R Hstep) as R'.
  assert (Hi' : weatherIntensity (hooks w') <> heavy)
    by (rewrite (step_weather _ w w' Hstep); exact Hi).
  pose proof (idle_timers w' (reachable_Inv w' R') Hi') as Hidle.
  split; [|split].
  - destruct (c_loop w C QT Hheavy) as (c & id0 & t0 & k & L1 & L2 & L3 & L4 & _).
    exists c, id0, t0. repeat split; try assumption.
    destruct (timers (env w') !! id0) as [t|] eqn:Et; [exfalso|reflexivity].
    destruct (step_grow _ w w' Hstep) as [_ G].
    destruct (G id0 t Et) as [Ho|Hge].
    + assert (t = t0) by congruence. subst t.
      pose proof (Hidle id0 t0 Et). congruence.
    + pose proof (c_fresh w C id0 t0 L3). lia.
  - cbn [step] in Hstep. injection Hstep as <-. unfold rerender, settle.
    pose proof (handleIntensityChange_spec i (hooks w) (env w)) as H. cbv zeta in H.
    destruct (handleIntensityChange i (hooks w) (env w)) as [q b'].
    cbn [fst snd] in H |- *. destruct H as (-> & _).
    apply commit_isThundering_false, commit_stops_flash; cbn [hooks fiber].
    + rewrite QT. unfold depsOfThunder. hooks_simpl. congruence.
    + exact Hi.
  - intros es w'' Hes Hrun.
    destruct (idle_run es w' w'' R' Hi' Hes Hrun) as [H1 H2].
    split; [exact H1|]. split.
    + apply idle_timers; [|exact H1].
      apply reachable_Inv, (reachable_run es w' w'' R' Hrun).
    + rewrite H2. destruct (step_trace _ w w' Hstep) as (new & En & Fn).
      { intros id t Hd. discriminate Hd. }
      rewrite En. now apply flashTimes_app.
Qed.

(** *** Restarting the automatic loop *)






(** *** The manual trigger *)

Lemma timeout_1000 : timeout_ms num_1000 = 1000%Z.
Proof. by_vm. Qed.

(** The cleanups and effects of a render leave the timers that end a flash
    alone: [timerRef.current] never holds one of them. *)
Lemma commit_keeps_clear w id t :
  Consistent w -> timers (env w) !! id = Some t -> callback t = ClearFlash ->
  timers (env (commit random w)) !! id = Some t.
Proof.
  intros C Ht Hcb. pose proof (c_fresh w C id t Ht) as Hlt.
  assert (H1 : timers (cleanupPhase (fiber w) (env w)) !! id = Some t).
  { unfold cleanupPhase, thunderCleanupFn.
    destruct (thunderCleanup (fiber w)) as [c|] eqn:Ec; [|exact Ht].
    destruct (cells (env w) !! c) as [id0|] eqn:Eid; [|exact Ht].
    cbn [clearTimeout withTimers timers]. apply lookup_delete_Some. split; [|exact Ht].
    intros ->. destruct (c_cell w C c id Ec Eid) as [_ Hno]. now apply (Hno t). }
  assert (H2 : timers (afterAudio w) !! id = Some t).
  { destruct (afterAudio_same w) as (_ & T & _). rewrite T.
    destruct (bool_decide _); assumption. }
  pose proof (afterAudio_grow w) as [N _].
  rewrite commit_eq. cbv zeta.
  destruct (bool_decide (thunderDeps _ <> _)); [|exact H2].
  destruct (bool_decide (weatherIntensity _ <> _)); [exact H2|].
  cbn [env loopStarted timers]. rewrite lookup_insert_ne by lia. exact H2.
Qed.

Lemma settle_keeps_clear w id t :
  Consistent w -> timers (env w) !! id = Some t -> callback t = ClearFlash ->
  timers (env (settle random w)) !! id = Some t.
Proof.
  intros C Ht Hcb. unfold settle.
  apply commit_keeps_clear; [now apply commit_Consistent| |exact Hcb].
  now apply commit_keeps_clear.
Qed.

(** A timer that ends a flash stays pending until it fires. *)
Lemma step_keeps_clear e w w' id t :
  Inv w -> step random e w = Some w' -> e <> TimerFires id ->
  timers (env w) !! id = Some t -> callback t = ClearFlash ->
  timers (env w') !! id = Some t.
Proof.
  intros I Hstep Hne Ht Hcb.
  destruct (step_inv e w w' Hstep) as (q & b & Hh & ->).
  pose proof (handle_Consistent e w q b I Hh) as C'.
  unfold rerender. cbn [fst snd]. apply settle_keeps_clear; [exact C'| |exact Hcb].
  cbn [env]. pose proof (c_fresh w (proj1 I) id t Ht) as Hlt.
  destruct e as [i|t'| |s|c|c|c| |id'|dt|a]; cbn [handle] in Hh;
    try (injection Hh as _ <-; exact Ht).
  - pose proof (handleIntensityChange_spec i (hooks w) (env w)) as H. cbv zeta in H.
    assert (Hq : handleIntensityChange i (hooks w) (env w) = (q, b)) by congruence.
    rewrite Hq in H. cbn [fst snd] in H.
    destruct H as (_ & _ & _ & (_ & T & _) & _). now rewrite T.
  - destruct (enableManualThunder (hooks w)); [|discriminate].
    pose proof (triggerManualThunder_spec (hooks w) (env w)) as H. cbv zeta in H.
    assert (Hq : triggerManualThunder (hooks w) (env w) = (q, b)) by congruence.
    rewrite Hq in H. cbn [fst snd] in H. destruct H as (_ & _ & T & _).
    rewrite T, lookup_insert_ne by lia. exact Ht.
  - destruct (timers (env w) !! id') as [t0|] eqn:Et; [|discriminate].
    case_bool_decide as Hdue; [|discriminate].
    assert (Hq : runCallback random (callback t0) (hooks w) (clearTimeout id' (env w)) = (q, b))
      by congruence.
    assert (Hd : timers (clearTimeout id' (env w)) !! id = Some t).
    { cbn [clearTimeout withTimers timers]. apply lookup_delete_Some.
      split; [congruence|exact Ht]. }
    destruct (callback t0) as [c m o|].
    + pose proof (runCallback_tick c m o (hooks w) (clearTimeout id' (env w))) as H.
      cbv zeta in H. rewrite Hq in H. cbn [fst snd] in H. destruct H as (_ & _ & T & _).
      rewrite T. cbn [clearTimeout withTimers nextTimer].
      rewrite !lookup_insert_ne by lia. exact Hd.
    + cbn [runCallback] in Hq. injection Hq as _ <-. exact Hd.
  - destruct (_ && _); [|discriminate]. injection Hh as _ <-. exact Ht.
Qed.

Lemma run_keeps_clear es w w' id t :
  reachable random w -> run random es w = Some w' -> ~ In (TimerFires id) es ->
  timers (env w) !! id = Some t -> callback t = ClearFlash ->
  timers (env w') !! id = Some t.
Proof.
  revert w. induction es as [|e es IH]; intros w R Hrun Hes Ht Hcb; cbn in Hrun.
  - now injection Hrun as <-.
  - destruct (step random e w) as [w1|] eqn:E; [|discriminate].
    apply (IH w1); [exact (reachable_step random e w w1 R E)|exact Hrun| | |exact Hcb].
    + intros Hin. apply Hes. now right.
    + apply (step_keeps_clear e w w1 id t (reachable_Inv w R) E); [|exact Ht|exact Hcb].
      intros ->. apply Hes. now left.
Qed.

(** The click on "Trigger Thunder" needs no effect to run: the world after
    it is the one the handler leaves. *)
Lemma trigger_step w :
  Inv w -> enableManualThunder (hooks w) = true ->
  step random ClickTriggerThunder w =
  Some {| hooks := setIsThundering true (hooks w); fiber := fiber w;
          env := snd (triggerManualThunder (hooks w) (env w)) |}.
Proof.
  intros [C (QA & QV & QT)] He. cbn [step]. rewrite He. f_equal.
  unfold rerender, settle.
  assert (E : fst (triggerManualThunder (hooks w) (env w)) = setIsThundering true (hooks w))
    by apply triggerManualThunder_spec.
  rewrite E.
  assert (Q : quiet {| hooks := setIsThundering true (hooks w); fiber := fiber w;
                       env := snd (triggerManualThunder (hooks w) (env w)) |}).
  { split; [exact QA|]. split; [exact QV|exact QT]. }
  now rewrite !(commit_quiet _ Q).
Qed.

(** C8. With the manual mode enabled, a click on "Trigger Thunder" sets
    [isThundering] at once and schedules its reset 1000 ms later, next to
    whatever timers are pending; unless muted it plays the thunder sound
    from the start at volume 1.0 with the window open and 0.5 with it
    closed. The reset stays pending until it fires, time does not pass
    beyond its instant, it fires exactly then, and [isThundering] is false
    when it has fired. *)
Theorem manual_thunder_flash w :
  reachable random w -> enableManualThunder (hooks w) = true ->
  let id := nextTimer (env w) in
  let reset := {| callback := ClearFlash; delay := num_1000; setAt := clock (env w) |} in
  let vol := if windowOpen (hooks w) then num_1 else num_0_5 in
  exists w',
    step random ClickTriggerThunder w = Some w' /\
    isThundering (hooks w') = true /\
    timers (env w') = <[id := reset]> (timers (env w)) /\
    due reset = (clock (env w) + 1000)%Z /\
    (if isMuted (hooks w)
     then trace (env w') = ManualFlash (clock (env w)) :: trace (env w) /\
          thunderEl (env w') = thunderEl (env w)
     else trace (env w') = ThunderPlay vol :: ManualFlash (clock (env w)) :: trace (env w) /\
          el_volume (thunderEl (env w')) = vol /\
          currentTime (thunderEl (env w')) = num_0 /\
          (autoplay (env w) = true -> paused (thunderEl (env w')) = false)) /\
    forall es w2,
      run random es w' = Some w2 -> ~ In (TimerFires id) es ->
      timers (env w2) !! id = Some reset /\
      (clock (env w2) <= clock (env w) + 1000)%Z /\
      (clock (env w2) = (clock (env w) + 1000)%Z <->
       exists w3, step random (TimerFires id) w2 = Some w3) /\
      forall w3, step random (TimerFires id) w2 = Some w3 ->
                 isThundering (hooks w3) = false.
Proof.
  intros R He id reset vol. pose proof (reachable_Inv w R) as I.
  pose proof (trigger_step w I He) as Hstep.
  eexists. split; [exact Hstep|].
  pose proof (reachable_step random _ w _ R Hstep) as R'.
  assert (Hdue : due reset = (clock (env w) + 1000)%Z).
  { unfold due, reset. cbn [setAt delay]. now rewrite timeout_1000. }
  cbn [hooks env]. split; [reflexivity|].
  split; [apply triggerManualThunder_spec|]. split; [exact Hdue|]. split.
  - unfold triggerManualThunder, thunderSound, setTimeout. cbv zeta.
    destruct (isMuted (hooks w)); cbn; repeat split.
    intros ->. reflexivity.
  - intros es w2 Hrun Hes.
    assert (Ht : timers (env w2) !! id = Some reset).
    { apply (run_keeps_clear es _ w2 id reset R' Hrun Hes); [|reflexivity].
      cbn [env]. destruct (triggerManualThunder_spec (hooks w) (env w)) as (_ & _ & T & _).
      rewrite T. apply lookup_insert_eq. }
    pose proof (reachable_run es _ w2 R' Hrun) as R2.
    pose proof (c_due w2 (proj1 (reachable_Inv w2 R2)) id reset Ht) as Hle.
    rewrite Hdue in Hle. split; [exact Ht|]. split; [exact Hle|]. split.
    + cbn [step]. rewrite Ht, Hdue. split.
      * intros ->. rewrite bool_decide_eq_true_2 by reflexivity. eexists. reflexivity.
      * intros (w3 & H3). case_bool_decide; [assumption|discriminate].
    + intros w3 H3. cbn [step] in H3. rewrite Ht in H3.
      destruct (bool_decide _); [|discriminate]. injection H3 as <-.
      unfold rerender, settle. cbn [callback reset runCallback fst snd].
      now do 2 apply commit_isThundering_false.
Qed.

(** *** Swapping the audio source *)

Lemma audioOps_app new tr : audioOps (new ++ tr) = audioOps new ++ audioOps tr.
Proof.
  induction new as [|o new IH]; [reflexivity|].
  destruct o; cbn [app audioOps]; now rewrite IH.
Qed.

Lemma audioEffect_unmuted h b :
  isMuted h = false ->
  let b' := audioEffect h b in
  src (audioEl b') = targetSrc h /\
  ((src (audioEl b) <> targetSrc h /\
    trace b' = RainPlay :: RainSrc (targetSrc h) :: trace b) \/
   (src (audioEl b) = targetSrc h /\
    trace b' = (if paused (audioEl b) then [RainPlay] else []) ++ trace b)).
Proof.
  intros Hm. cbv zeta. unfold audioEffect. cbv zeta. rewrite Hm.
  fold (targetSrc h). set (target := targetSrc h).
  change (src (audioEl (assignLoop true b))) with (src (audioEl b)).
  destruct (String.eqb_spec (src (audioEl b)) target) as [E|E]; cbn [negb].
  - change (paused (audioEl (assignVolume (volume h) (assignLoop true b))))
      with (paused (audioEl b)).
    rewrite orb_false_r. destruct (paused (audioEl b)) eqn:Ep.
    + unfold play. destruct (autoplay _);
        (split; [exact E|right; split; [exact E|reflexivity]]).
    + split; [exact E|right; split; [exact E|reflexivity]].
  - rewrite orb_true_r. unfold play. destruct (autoplay _);
      (split; [reflexivity|left; split; [exact E|reflexivity]]).
Qed.

Lemma cleanupPhase_audioEl f b : audioEl (cleanupPhase f b) = audioEl b.
Proof.
  unfold cleanupPhase, thunderCleanupFn.
  destruct (thunderCleanup f) as [c|]; [|reflexivity].
  destruct (cells b !! c); reflexivity.
Qed.

Lemma commit_target w : targetSrc (hooks (commit random w)) = targetSrc (hooks w).
Proof.
  destruct (commit_keeps w) as (K1 & _ & _ & _ & _ & _ & K7).
  unfold targetSrc. now rewrite K1, K7.
Qed.

(** One render of an unmuted page, whose audio element holds the source of
    the state the audio effect last ran for. *)
Lemma commit_swaps w :
  isMuted (hooks w) = false ->
  (audioDeps (fiber w) = Some (depsOfAudio (hooks w)) ->
   src (audioEl (env w)) = targetSrc (hooks w)) ->
  swapsWhenDiffers w (commit random w) (targetSrc (hooks w)).
Proof.
  intros Hm Hsame.
  set (b1 := if bool_decide (thunderDeps (fiber w) <> Some (depsOfThunder (hooks w)))
             then cleanupPhase (fiber w) (env w) else env w).
  assert (A1 : audioEl b1 = audioEl (env w))
    by (unfold b1; destruct (bool_decide _); [apply cleanupPhase_audioEl|reflexivity]).
  assert (T1 : trace b1 = trace (env w))
    by (unfold b1; destruct (bool_decide _); [apply cleanupPhase_trace|reflexivity]).
  assert (H : swapsWhenDiffers w {| hooks := hooks w; fiber := fiber w; env := afterAudio w |}
                (targetSrc (hooks w))).
  { unfold swapsWhenDiffers, afterAudio. cbv zeta. fold b1. cbn [env].
    destruct (decide (audioDeps (fiber w) = Some (depsOfAudio (hooks w)))) as [Hd|Hd].
    - rewrite bool_decide_eq_false_2 by (intros H; now apply H).
      rewrite A1, T1. split; [now apply Hsame|]. exists []. split; [reflexivity|].
      right. split; [now apply Hsame|now left].
    - rewrite bool_decide_eq_true_2 by exact Hd.
      destruct (audioEffect_unmuted (hooks w) b1 Hm) as [Hs [[Hne Ht]|[He Ht]]];
        rewrite A1 in *; rewrite T1 in Ht; (split; [exact Hs|]); rewrite Ht.
      + exists [RainPlay; RainSrc (targetSrc (hooks w))]. split; [reflexivity|].
        left. now split.
      + rewrite audioOps_app.
        destruct (paused (audioEl (env w)));
          [exists [RainPlay]|exists []]; (split; [reflexivity|]); right; auto. }
  rewrite commit_eq. cbv zeta.
  destruct (bool_decide (thunderDeps _ <> _)); [|exact H].
  destruct (bool_decide (weatherIntensity _ <> _)); exact H.
Qed.

(** An event whose handler leaves the environment alone and the page
    unmuted, with the window as it was. *)
Lemma rerender_swaps w q :
  Inv w -> isMuted q = false -> windowOpen q = windowOpen (hooks w) ->
  Consistent {| hooks := q; fiber := fiber w; env := env w |} ->
  swapsWhenDiffers w (rerender random w (q, env w)) (targetSrc q).
Proof.
  intros [C (QA & QV & QT)] Hm Ho C'. unfold rerender. cbn [fst snd].
  set (w0 := {| hooks := q; fiber := fiber w; env := env w |}) in *.
  rewrite settle_one_pass by (cbn [w0 fiber hooks]; rewrite QV; unfold depsOfVolume; congruence).
  exact (commit_swaps w0 Hm (fun Hd => proj1 (c_audio w0 C' Hd))).
Qed.

(** C2. The audio effect of an unmuted page, and the handler of the
    intensity buttons, assign the source and call [play()] when the element's
    source differs from the target [AUDIO_SOURCES[surface][intensity]], and
    leave the source alone when it is equal. So does a click on an intensity
    button or a selection of a surface on an unmuted page, from the state
    before the event to the state after its effects. *)
Theorem source_swapped_iff_differs :
  (forall h b, isMuted h = false ->
     let b' := audioEffect h b in
     src (audioEl b') = targetSrc h /\
     ((src (audioEl b) <> targetSrc h /\
       trace b' = RainPlay :: RainSrc (targetSrc h) :: trace b) \/
      (src (audioEl b) = targetSrc h /\
       trace b' = (if paused (audioEl b) then [RainPlay] else []) ++ trace b))) /\
  (forall i h b,
     let b' := snd (handleIntensityChange i h b) in
     let target := AUDIO_SOURCES (surface h) i in
     src (audioEl b') = target /\
     ((src (audioEl b) <> target /\
       trace b' = RainPlay :: RainSrc target :: trace b) \/
      (src (audioEl b) = target /\ b' = b))) /\
  (forall w i w', reachable random w -> isMuted (hooks w) = false ->
     step random (ClickIntensity i) w = Some w' ->
     swapsWhenDiffers w w' (AUDIO_SOURCES (surface (hooks w)) i)) /\
  (forall w s w', reachable random w -> isMuted (hooks w) = false ->
     step random (SelectSurface s) w = Some w' ->
     swapsWhenDiffers w w' (AUDIO_SOURCES s (weatherIntensity (hooks w)))).
Proof.
  split; [exact audioEffect_unmuted|]. split; [|split].
  - intros i h b. cbv zeta.
    destruct (handleIntensityChange_spec i h b) as (_ & Hs & _ & _ & [[He Hb]|[Hn Ht]]).
    + split; [exact Hs|]. right. now split.
    + split; [exact Hs|]. left. now split.
  - intros w i w' R Hm Hstep. pose proof (reachable_Inv w R) as I.
    destruct (step_inv _ w w' Hstep) as (q & b & Hh & ->).
    pose proof (handle_Consistent _ w q b I Hh) as C'.
    cbn [handle] in Hh.
    pose proof (handleIntensityChange_spec i (hooks w) (env w)) as H. cbv zeta in H.
    assert (Hq : handleIntensityChange i (hooks w) (env w) = (q, b)) by congruence.
    rewrite Hq in H. cbn [fst snd] in H.
    destruct H as (-> & _ & _ & _ & [[_ ->]|[Hn _]]).
    + exact (rerender_swaps w (setIsMuted false (setWeatherIntensity i (hooks w))) I
               eq_refl eq_refl C').
    + exfalso. apply Hn. rewrite (reachable_src w R). apply AUDIO_SOURCES_surface.
  - intros w s w' R Hm Hstep. pose proof (reachable_Inv w R) as I.
    destruct (step_inv _ w w' Hstep) as (q & b & Hh & ->).
    pose proof (handle_Consistent _ w q b I Hh) as C'.
    cbn [handle] in Hh. injection Hh as <- <-.
    exact (rerender_swaps w (setSurface s (hooks w)) I Hm eq_refl C').
Qed.

(** *** The schedule of the automatic loop *)

Local Open Scope Z_scope.

(** [5000 + r * 10000] for a draw [r]: at least 5000 and, after rounding,
    still below 15000. *)
Lemma thunderDelay_range r :
  is_random r = true ->
  valid (thunderDelay r) /\ fin_nonneg (thunderDelay r) = true /\
  5000 * 2 ^ 1074 <= sc (thunderDelay r) < 15000 * 2 ^ 1074.
Proof.
  intros Hr. unfold thunderDelay.
  destruct (mul_draw_bounds r num_10000 Hr ltac:(by_vm) ltac:(by_vm) ltac:(by_vm))
    as (Vx & Nx & Hx).
  destruct (mul_draw_bounds pred_1 num_10000 eq_refl ltac:(by_vm) ltac:(by_vm) ltac:(by_vm))
    as (Vm & Nm & _).
  destruct (add_bounds num_5000 (SF64mul r num_10000) (SF64mul pred_1 num_10000)
              ltac:(by_vm) ltac:(by_vm) Vx Nx Vm Nm Hx ltac:(by_vm))
    as [(V & N & Hlo & Hhi) _].
  assert (E1 : (5000 * 2 ^ 1074 <=? sc num_5000) = true) by by_vm.
  assert (E2 : (sc (SF64add num_5000 (SF64mul pred_1 num_10000)) <? 15000 * 2 ^ 1074) = true)
    by by_vm.
  apply Z.leb_le in E1. apply Z.ltb_lt in E2.
  split; [exact V|]. split; [exact N|]. lia.
Qed.

Lemma thunderDelay_timeout r :
  is_random r = true ->
  (5000 <= toQ (thunderDelay r))%Q /\ (toQ (thunderDelay r) < 15000)%Q /\
  5000 <= timeout_ms (thunderDelay r) < 15000.
Proof.
  intros Hr. destruct (thunderDelay_range r Hr) as (V & N & Hlo & Hhi).
  split; [|split].
  - apply (toQ_ge _ 5000 1). rewrite fin_nonneg_scaled by exact N. lia.
  - apply (toQ_lt _ 15000 1). rewrite fin_nonneg_scaled by exact N. lia.
  - apply timeout_ms_sc; try assumption; lia.
Qed.

Lemma schedule_gaps tr :
  (forall k, is_random (random k) = true) -> flashesOnSchedule tr -> flashGaps tr.
Proof.
  intros Hr. induction tr as [|o tr IH]; [trivial|].
  destruct o; cbn [flashesOnSchedule flashGaps]; try exact IH.
  intros [(t0 & k & Hl & ->) Hs]. split; [|now apply IH].
  exists t0. split; [exact Hl|].
  destruct (thunderDelay_timeout (random k) (Hr k)) as (_ & _ & H). lia.
Qed.

Lemma flashGaps_suffix pre tr : flashGaps (pre ++ tr) -> flashGaps tr.
Proof.
  induction pre as [|o pre IH]; [trivial|].
  destruct o; cbn [app flashGaps]; try exact IH. intros [_ H]. now apply IH.
Qed.

(** The instants of the loop among the observations never decrease
    towards the latest, which is at most [c]. *)
Fixpoint loopTimesUpTo (c : Z) (tr : list Obs) : Prop :=
  match tr with
  | [] => True
  | AutoFlash t :: tr' | LoopStart t :: tr' => t <= c /\ loopTimesUpTo t tr'
  | _ :: tr' => loopTimesUpTo c tr'
  end.

Lemma loopTimesUpTo_mono c c' tr :
  c <= c' -> loopTimesUpTo c tr -> loopTimesUpTo c' tr.
Proof.
  intros Hc. induction tr as [|o tr IH]; [trivial|].
  destruct o; cbn [loopTimesUpTo]; try exact IH; intros [H1 H2]; (split; [lia|exact H2]).
Qed.

Lemma loopTimesUpTo_app c new tr :
  Forall besideLoop new -> loopTimesUpTo c tr -> loopTimesUpTo c (new ++ tr).
Proof.
  intros Hn H. induction Hn as [|o new Ho _ IH]; [exact H|].
  destruct o; cbn in *; try contradiction; exact IH.
Qed.

Lemma loopTimesUpTo_suffix c pre tr :
  loopTimesUpTo c (pre ++ tr) -> exists c', loopTimesUpTo c' tr.
Proof.
  revert c. induction pre as [|o pre IH]; intros c H; [now exists c|].
  destruct o; cbn [app loopTimesUpTo] in H; try (now apply (IH c));
    destruct H as [_ H]; now apply (IH t).
Qed.

Lemma loopTimesUpTo_flash c mid t0 tr :
  loopTimesUpTo c (mid ++ AutoFlash t0 :: tr) -> t0 <= c.
Proof.
  revert c. induction mid as [|o mid IH]; intros c H.
  - now destruct H.
  - destruct o; cbn [app loopTimesUpTo] in H; try (now apply IH);
      destruct H as [H1 H2]; apply IH in H2; lia.
Qed.

Lemma lastLoopTime_after_flash c mid t0 tr t1 :
  loopTimesUpTo c (mid ++ AutoFlash t0 :: tr) ->
  lastLoopTime (mid ++ AutoFlash t0 :: tr) = Some t1 -> t0 <= t1.
Proof.
  revert c. induction mid as [|o mid IH]; intros c H Hl.
  - cbn in Hl. injection Hl as <-. lia.
  - destruct o; cbn [app loopTimesUpTo lastLoopTime] in H, Hl;
      try (now apply (IH c));
      injection Hl as <-; destruct H as [_ H]; now apply loopTimesUpTo_flash in H.
Qed.

(** A world whose observations of the loop are in the order of time. *)
Definition inOrder (w : World) : Prop :=
  loopTimesUpTo (clock (env w)) (trace (env w)).

Lemma cleanupPhase_clock f b : clock (cleanupPhase f b) = clock b.
Proof.
  unfold cleanupPhase, thunderCleanupFn.
  destruct (thunderCleanup f) as [c|]; [|reflexivity].
  destruct (cells b !! c); reflexivity.
Qed.

Lemma afterAudio_clock w : clock (afterAudio w) = clock (env w).
Proof.
  destruct (afterAudio_same w) as (_ & _ & _ & _ & _ & K & _). rewrite K.
  destruct (bool_decide _); [apply cleanupPhase_clock|reflexivity].
Qed.

Lemma commit_inOrder w : inOrder w -> inOrder (commit random w).
Proof.
  unfold inOrder. intros H. rewrite commit_eq. cbv zeta.
  destruct (afterAudio_trace w) as (new & En & Fn).
  pose proof (afterAudio_clock w) as K.
  assert (H' : loopTimesUpTo (clock (afterAudio w)) (trace (afterAudio w))).
  { rewrite En, K. now apply loopTimesUpTo_app. }
  destruct (bool_decide (thunderDeps _ <> _)); [|exact H'].
  destruct (bool_decide (weatherIntensity _ <> _)); [exact H'|].
  cbn [env loopStarted clock trace loopTimesUpTo]. split; [lia|exact H'].
Qed.

Lemma handle_inOrder e w q b :
  handle e w = Some (q, b) -> inOrder w -> loopTimesUpTo (clock b) (trace b).
Proof.
  unfold inOrder. intros Hh H.
  destruct e as [i|t'| |s|c|c|c| |id|dt|a]; cbn [handle] in Hh;
    try (injection Hh as _ <-; exact H).
  - pose proof (handleIntensityChange_spec i (hooks w) (env w)) as HS. cbv zeta in HS.
    assert (Hq : handleIntensityChange i (hooks w) (env w) = (q, b)) by congruence.
    rewrite Hq in HS. cbn [fst snd] in HS.
    destruct HS as (_ & _ & _ & (_ & _ & _ & _ & _ & K & _ & _ & new & En & Fn) & _).
    rewrite K, En. now apply loopTimesUpTo_app.
  - destruct (enableManualThunder (hooks w)); [|discriminate].
    pose proof (triggerManualThunder_spec (hooks w) (env w)) as HS. cbv zeta in HS.
    assert (Hq : triggerManualThunder (hooks w) (env w) = (q, b)) by congruence.
    rewrite Hq in HS. cbn [fst snd] in HS. destruct HS as (_ & _ & _ & _ & _ & K & Htr).
    rewrite K, Htr. apply loopTimesUpTo_app; [apply besideLoop_thunderPlay|exact H].
  - destruct (timers (env w) !! id) as [t0|] eqn:Et; [|discriminate].
    case_bool_decide as Hdue; [|discriminate].
    assert (Hq : runCallback random (callback t0) (hooks w) (clearTimeout id (env w)) = (q, b))
      by congruence.
    destruct (callback t0) as [c m o|].
    + pose proof (runCallback_tick c m o (hooks w) (clearTimeout id (env w))) as HS.
      cbv zeta in HS. rewrite Hq in HS. cbn [fst snd] in HS.
      destruct HS as (_ & _ & _ & _ & _ & K & _ & Htr).
      rewrite K, Htr. apply loopTimesUpTo_app; [apply besideLoop_thunderPlay|].
      cbn [loopTimesUpTo clearTimeout withTimers clock trace]. split; [lia|exact H].
    + cbn [runCallback] in Hq. injection Hq as _ <-. exact H.
  - destruct (bool_decide (0 < dt)) eqn:Hdt; [|discriminate].
    destruct (bool_decide (map_Forall _ _)); [|discriminate].
    cbn [andb] in Hh. injection Hh as _ <-. apply bool_decide_eq_true_1 in Hdt.
    cbn [withClock clock trace]. apply (loopTimesUpTo_mono (clock (env w))); [lia|exact H].
Qed.

Lemma reachable_inOrder w : reachable random w -> inOrder w.
Proof.
  induction 1 as [|e w w' _ IH Hstep].
  - unfold mounted, settle. do 2 apply commit_inOrder. exact I.
  - destruct (step_inv e w w' Hstep) as (q & b & Hh & ->).
    unfold rerender, settle. do 2 apply commit_inOrder.
    exact (handle_inOrder e w q b Hh IH).
Qed.

(** Without a click on an intensity button the intensity stays what it
    is. *)
Lemma run_keeps_weather es w w' :
  Forall noIntensityClick es -> run random es w = Some w' ->
  weatherIntensity (hooks w') = weatherIntensity (hooks w).
Proof.
  intros Hes. revert w. induction Hes as [|e es He _ IH]; intros w Hrun; cbn in Hrun.
  - now injection Hrun as <-.
  - destruct (step random e w) as [w1|] eqn:E; [|discriminate].
    rewrite (IH w1 Hrun), (step_weather e w w1 E).
    destruct e; try reflexivity. contradiction.
Qed.

(** C4, amended. The delay of every timer of the automatic loop is
    [5000 + r * 10000] for a draw [r], at least 5000 and below 15000, also as
    the whole number of milliseconds of the timeout. In heavy rain one such
    timer is pending, set at the last flash or (re)start of the loop. Every
    flash of the loop came 5000 ms to 15000 ms (excluded) after the previous
    flash or the (re)start of the loop, whichever is later; so two consecutive
    flashes with no restart of the loop between them are that far apart, and
    any two flashes are at least 5000 ms apart. *)
Theorem thunder_loop_schedule w :
  (forall k, is_random (random k) = true) -> reachable random w ->
  (forall k, (5000 <= toQ (thunderDelay (random k)))%Q /\
             (toQ (thunderDelay (random k)) < 15000)%Q /\
             5000 <= timeout_ms (thunderDelay (random k)) < 15000) /\
  (forall id t c m o,
      timers (env w) !! id = Some t -> callback t = ThunderTick c m o ->
      weatherIntensity (hooks w) = heavy /\
      (exists k, delay t = thunderDelay (random k)) /\
      lastLoopTime (trace (env w)) = Some (setAt t) /\
      setAt t + 5000 <= due t < setAt t + 15000) /\
  (weatherIntensity (hooks w) = heavy ->
   exists id t c,
     timers (env w) !! id = Some t /\
     callback t = ThunderTick c (isMuted (hooks w)) (windowOpen (hooks w))) /\
  flashGaps (trace (env w)) /\
  (forall pre mid t t0 tr,
      trace (env w) = pre ++ AutoFlash t :: mid ++ AutoFlash t0 :: tr ->
      5000 <= t - t0 /\ (Forall besideLoop mid -> t - t0 < 15000)).
Proof.
  intros Hr R. destruct (reachable_Inv w R) as [C (QA & QV & QT)].
  pose proof (schedule_gaps _ Hr (c_schedule w C)) as Hg.
  split; [intros k; apply thunderDelay_timeout, Hr|]. split; [|split; [|split]].
  - intros id t c m o Ht Hcb.
    destruct (c_ticks w C id t c m o Ht Hcb) as [Hcl Hcell].
    assert (Hheavy : weatherIntensity (hooks w) = heavy).
    { destruct (decide (weatherIntensity (hooks w) = heavy)) as [|Hn]; [assumption|].
      pose proof (c_idle w C QT Hn). congruence. }
    destruct (c_loop w C QT Hheavy) as (c0 & id0 & t0 & k & L1 & L2 & L3 & L4 & L5 & L6).
    assert (c0 = c) by congruence. subst c0.
    assert (id0 = id) by congruence. subst id0.
    assert (t0 = t) by congruence. subst t0.
    split; [exact Hheavy|]. split; [now exists k|]. split; [exact L6|].
    unfold due. rewrite L5.
    destruct (thunderDelay_timeout (random k) (Hr k)) as (_ & _ & H). lia.
  - intros Hheavy.
    destruct (c_loop w C QT Hheavy) as (c & id & t & k & _ & _ & L3 & L4 & _).
    now exists id, t, c.
  - exact Hg.
  - intros pre mid t t0 tr E. rewrite E in Hg.
    apply flashGaps_suffix in Hg. cbn [flashGaps] in Hg.
    destruct Hg as [(t1 & Hl & Hb) _].
    pose proof (reachable_inOrder w R) as Ho. unfold inOrder in Ho. rewrite E in Ho.
    apply loopTimesUpTo_suffix in Ho. destruct Ho as (c' & Ho).
    cbn [loopTimesUpTo] in Ho. destruct Ho as [_ Ho].
    pose proof (lastLoopTime_after_flash _ _ _ _ _ Ho Hl) as Hle.
    split; [lia|]. intros Hmid.
    rewrite lastLoopTime_app in Hl by exact Hmid. cbn [lastLoopTime] in Hl.
    injection Hl as <-. lia.
Qed.

End Rendering.

(** *** Concrete runs *)

Lemma draws_random k : is_random (draws k) = true.
Proof. destruct k; by_vm. Qed.

Lemma reachable_storm : reachable draws storm.
Proof.
  exact (reachable_step draws (ClickIntensity heavy) (mounted draws) storm
           (reachable_mounted draws) eq_refl).
Qed.

Lemma reachable_armed : reachable draws armed.
Proof.
  exact (reachable_step draws (SwitchManualThunder true) (mounted draws) armed
           (reachable_mounted draws) eq_refl).
Qed.

(** C3, as stated: the volume is 0.8 or 0.3 in every state. It fails in the
    state of the first render: [useState(0.5)] with the window closed; the
    first run of the audio effect assigns that 0.5 to the element. *)
Lemma volume_at_first_render :
  ~ volumeFollowsWindow firstRender /\
  volume (hooks firstRender) = num_0_5 /\ windowOpen (hooks firstRender) = false /\
  el_volume (audioEl (env (commit (fun _ => num_0) firstRender))) = num_0_5.
Proof.
  split; [|repeat split].
  intros [H _]. cbn in H. discriminate H.
Qed.

Lemma volume_follows_window_witness :
  volumeFollowsWindow (mounted (fun _ => num_0)).
Proof. apply (volume_follows_window (fun _ => num_0)). apply reachable_mounted. Defined.

Lemma intensity_never_changes_source_witness :
  src (audioEl (env (mounted (fun _ => num_0)))) = AUDIO_SOURCES glass heavy.
Proof.
  apply (proj2 (intensity_never_changes_source (fun _ => num_0))).
  apply reachable_mounted.
Defined.

Lemma leaving_heavy_stops_thunder_witness :
  exists w',
    step draws (ClickIntensity light) storm = Some w' /\
    isThundering (hooks w') = false /\
    forall id t, timers (env w') !! id = Some t -> callback t = ClearFlash.
Proof.
  eexists. split; [reflexivity|].
  destruct (leaving_heavy_stops_thunder draws storm light _ reachable_storm
              ltac:(by_vm) ltac:(discriminate) eq_refl) as (_ & H2 & H3).
  split; [exact H2|].
  apply (H3 [] _ (fun e (F : In e []) => match F with end) eq_refl).
Defined.


Lemma manual_thunder_flash_witness :
  exists w',
    step draws ClickTriggerThunder armed = Some w' /\
    isThundering (hooks w') = true /\
    trace (env w') = ThunderPlay num_0_5 :: ManualFlash 0 :: trace (env armed).
Proof.
  destruct (manual_thunder_flash draws armed reachable_armed ltac:(by_vm))
    as (w' & H1 & H2 & _ & _ & H5 & _).
  exists w'. split; [exact H1|]. split; [exact H2|].
  assert (Hm : isMuted (hooks armed) = false) by by_vm.
  assert (Ho : windowOpen (hooks armed) = false) by by_vm.
  assert (Hc : clock (env armed) = 0%Z) by by_vm.
  rewrite Hm, Ho, Hc in H5. exact (proj1 H5).
Defined.

(** Selecting the metal surface on the freshly mounted page swaps the
    source and plays it. *)
Lemma source_swapped_iff_differs_witness :
  exists w',
    step draws (SelectSurface metal) (mounted draws) = Some w' /\
    src (audioEl (env w')) = AUDIO_SOURCES metal medium /\
    src (audioEl (env (mounted draws))) <> AUDIO_SOURCES metal medium.
Proof.
  eexists. split; [reflexivity|].
  destruct (source_swapped_iff_differs draws) as (_ & _ & _ & H).
  destruct (H (mounted draws) metal _ (reachable_mounted draws) ltac:(by_vm) eq_refl)
    as [Hs _].
  split; [exact Hs|]. vm_compute. discriminate.
Defined.

(** C4, as stated: in heavy rain any two consecutive flashes of the loop are
    5000 ms to 15000 ms (excluded) apart. It fails when the loop is
    restarted between them: in [restartRun] the intensity is heavy
    throughout and the two flashes are 19000 ms apart. *)
Lemma flash_gap_after_restart :
  Forall noIntensityClick restartRun /\
  option_map (fun w => (weatherIntensity (hooks w), flashTimes (trace (env w))))
    (run draws (ClickIntensity heavy :: restartRun) (mounted draws))
  = Some (heavy, [24000; 5000]%Z) /\
  ~ (forall random es w,
       (forall k, is_random (random k) = true) ->
       Forall noIntensityClick es ->
       run random (ClickIntensity heavy :: es) (mounted random) = Some w ->
       Forall (fun g => 5000 <= g < 15000)%Z (gaps (flashTimes (trace (env w))))).
Proof.
  assert (Hes : Forall noIntensityClick restartRun) by (repeat constructor).
  assert (Hrun : option_map (fun w => (weatherIntensity (hooks w), flashTimes (trace (env w))))
                   (run draws (ClickIntensity heavy :: restartRun) (mounted draws))
                 = Some (heavy, [24000; 5000]%Z)) by by_vm.
  split; [exact Hes|]. split; [exact Hrun|].
  intros H.
  destruct (run draws (ClickIntensity heavy :: restartRun) (mounted draws)) as [w|] eqn:E;
    [|discriminate Hrun].
  specialize (H draws restartRun w draws_random Hes E).
  cbn [option_map] in Hrun. injection Hrun as _ Ht. rewrite Ht in H.
  cbn [gaps] in H. inversion H as [|g l Hg _]. lia.
Qed.

Lemma thunder_loop_schedule_witness :
  flashGaps (trace (env storm)) /\
  exists id t c, timers (env storm) !! id = Some t /\
    callback t = ThunderTick c (isMuted (hooks storm)) (windowOpen (hooks storm)).
Proof.
  destruct (thunder_loop_schedule draws storm draws_random reachable_storm)
    as (_ & _ & H3 & H4 & _).
  split; [exact H4|]. apply H3. by_vm.
Defined.

End RainyPageProps.
